(** * hw3c.py: Cholesky / Doolittle dispatch for augmented linear systems

    A shallow embedding of [src/hw3c.py].  Python lists are [list]s read
    with stdpp's lookup and written with its insert (an index out of range
    raises [IndexError], as in Python); exceptions are the [Raise] case of
    a result type threaded through the code with stdpp's monad notation;
    the random generator is an explicit state.  Python's numbers are kept
    behind the interface [Number]: the algorithms are written once against
    it, and the implementation given further down is the binary64 floats
    with Python's complex fallback. *)

From Stdlib Require Import ZArith Reals Lra Lia Floats String.
From stdpp Require Import base list.

(** ** Exceptions *)

Inductive exn : Set :=
  | ZeroDivisionError
  | IndexError
  | TypeError
  | OverflowError.

Inductive result (A : Type) : Type :=
  | Ok (a : A)
  | Raise (e : exn).
Arguments Ok {A} a.
Arguments Raise {A} e.

#[global] Instance result_ret : MRet result := @Ok.
#[global] Instance result_bind : MBind result :=
  λ A B f m, match m with Ok a => f a | Raise e => Raise e end.
#[global] Instance result_fmap : FMap result :=
  λ A B f m, match m with Ok a => Ok (f a) | Raise e => Raise e end.

(** ** The numbers of the program

    [of_int z] is the int literal [z]; [float_zero] is [0.0]; [ndiv] is the
    quotient [x / y] for a divisor that is not zero, and [is_zero y] is the
    test that makes [x / y] raise [ZeroDivisionError]; [pow_two x] is
    [x ** 2] and [pow_half x] is [x ** 0.5], which return a number (a
    complex one for a negative base) or raise [OverflowError] when the
    result is out of range; [neqb] is [==]; [ngt] is [>], which raises
    [TypeError] on a complex operand. *)

Class Number (num : Type) : Type := {
  of_int : Z → num;
  float_zero : num;
  nadd : num → num → num;
  nsub : num → num → num;
  nmul : num → num → num;
  ndiv : num → num → num;
  is_zero : num → bool;
  pow_two : num → result num;
  pow_half : num → result num;
  neqb : num → num → bool;
  ngt : num → num → result bool;
}.

Infix "⊕" := nadd (at level 50, left associativity).
Infix "⊖" := nsub (at level 50, left associativity).
Infix "⊗" := nmul (at level 40, left associativity).

(** The right-hand side handed back by the split of an augmented matrix:
    a flat vector, or a column whose entries are themselves lists. *)
Inductive rhs (num : Type) : Type :=
  | Flat (v : list num)
  | Nested (v : list (list num)).
Arguments Flat {num} v.
Arguments Nested {num} v.

(** One printed line of [execute_main]. *)
Record report (num : Type) : Type := Report {
  rep_index : nat;
  rep_method : string;
  rep_solution : list num;
}.
Arguments Report {num}.
Arguments rep_index {num}.
Arguments rep_method {num}.
Arguments rep_solution {num}.

(** ** Python list primitives *)

(** [l[i]] for [0 <= i]. *)
Definition index {A} (l : list A) (i : nat) : result A :=
  match l !! i with
  | Some x => Ok x
  | None => Raise IndexError
  end.

(** [l[i] = v] for [0 <= i]. *)
Definition store {A} (l : list A) (i : nat) (v : A) : result (list A) :=
  if decide (i < length l) then Ok (<[i:=v]> l) else Raise IndexError.

(** [m[i][j] = v]: the row object [m[i]] is fetched, then written in place;
    the rows of the matrices written this way are distinct objects. *)
Definition store2 {A} (m : list (list A)) (i j : nat) (v : A)
  : result (list (list A)) :=
  row ← index m i;
  row' ← store row j v;
  store m i row'.

(** [for x in xs: s = body(x, s)] *)
Fixpoint for_each {A S} (xs : list A) (body : A → S → result S) (s : S)
  : result S :=
  match xs with
  | [] => Ok s
  | x :: xs' => s' ← body x s; for_each xs' body s'
  end.

(** [[f(x) for x in xs]] *)
Fixpoint list_comp {A B} (f : A → result B) (xs : list A) : result (list B) :=
  match xs with
  | [] => Ok []
  | x :: xs' => y ← f x; ys ← list_comp f xs'; Ok (y :: ys)
  end.

(** [l1 == l2] on lists whose items stand at the indices [k], [k + 1], ...:
    equal lengths, and at every index items for which [eq] holds, where
    [eq i x y] is Python's comparison of two items, [x is y or x == y]. *)
Fixpoint list_eqb {A} (eq : nat → A → A → bool) (k : nat) (l1 l2 : list A)
  : bool :=
  match l1, l2 with
  | [], [] => true
  | x :: l1', y :: l2' => eq k x y && list_eqb eq (S k) l1' l2'
  | _, _ => false
  end.

(** [range(n - 1, -1, -1)] *)
Definition range_down (n : nat) : list nat := rev (seq 0 n).

Section Program.

Context {num : Type} `{Number num}.

(** The collaborators that are not part of the file: the split of
    [Gauss_Seidel], the solver of [DoolittleMethod], and the generator
    behind [random.uniform], whose state is threaded explicitly. *)
Variable separateAugmented :
  list (list num) → result (list (list num) * rhs num).
Variable Doolittle : list (list num) → result (list num).
Variable rng : Type.
Variable uniform : num → num → rng → num * rng.

(** [x / y] *)
Definition py_div (x y : num) : result num :=
  if is_zero y then Raise ZeroDivisionError else Ok (ndiv x y).

(** [sum(term(k) for k in ks)]: starts from the int [0] and adds the
    terms from the left. *)
Definition py_sum (term : nat → result num) (ks : list nat) : result num :=
  for_each ks (λ k acc, t ← term k; Ok (acc ⊕ t)) (of_int 0).

(** [compute_transpose], lines 25-35 and 114-124. *)
Definition compute_transpose (matrix : list (list num))
  : result (list (list num)) :=
  row0 ← index matrix 0;
  list_comp (λ i,
    list_comp (λ j, row ← index matrix j; index row i)
              (seq 0 (length matrix)))
    (seq 0 (length row0)).

(** [forward_substitution], lines 37-52. *)
Definition forward_substitution (lower : list (list num)) (vector : list num)
  : result (list num) :=
  let n := length vector in
  for_each (seq 0 n) (λ i y,
    vi ← index vector i;
    s ← py_sum (λ j,
           row ← index lower i; lij ← index row j;
           yj ← index y j;
           Ok (lij ⊗ yj)) (seq 0 i);
    row ← index lower i; lii ← index row i;
    q ← py_div (vi ⊖ s) lii;
    store y i q) (replicate n float_zero).

(** [backward_substitution], lines 54-69. *)
Definition backward_substitution (upper : list (list num)) (vector : list num)
  : result (list num) :=
  let n := length vector in
  for_each (range_down n) (λ i x,
    vi ← index vector i;
    s ← py_sum (λ j,
           row ← index upper i; uij ← index row j;
           xj ← index x j;
           Ok (uij ⊗ xj)) (seq (i + 1) (n - (i + 1)));
    row ← index upper i; uii ← index row i;
    q ← py_div (vi ⊖ s) uii;
    store x i q) (replicate n float_zero).

(** Lines 73-75 and 158-160: [vector[0]] is inspected, and a nested
    vector is flattened. *)
Definition flatten_rhs (vector : rhs num) : result (list num) :=
  match vector with
  | Flat [] | Nested [] => Raise IndexError
  | Flat v => Ok v
  | Nested v => Ok (concat v)
  end.

(** The body of the inner loop of lines 81-88, for one cell [(i, j)]. *)
Definition cholesky_cell (matrix : list (list num)) (i j : nat)
    (lower : list (list num)) : result (list (list num)) :=
  if decide (i = j) then
    sum_sq ← py_sum (λ k,
                row ← index lower i; lik ← index row k;
                pow_two lik) (seq 0 j);
    mrow ← index matrix i; mij ← index mrow j;
    root ← pow_half (mij ⊖ sum_sq);
    store2 lower i j root
  else
    sum_prod ← py_sum (λ k,
                  rowi ← index lower i; lik ← index rowi k;
                  rowj ← index lower j; ljk ← index rowj k;
                  Ok (lik ⊗ ljk)) (seq 0 j);
    mrow ← index matrix i; mij ← index mrow j;
    rowj ← index lower j; ljj ← index rowj j;
    q ← py_div (mij ⊖ sum_prod) ljj;
    store2 lower i j q.

(** One pass of the outer loop: row [i], columns [0..i]. *)
Definition cholesky_row (matrix : list (list num)) (i : nat)
    (lower : list (list num)) : result (list (list num)) :=
  for_each (seq 0 (i + 1)) (cholesky_cell matrix i) lower.

(** Lines 77-88 of [decompose_cholesky]: the Cholesky factor. *)
Definition cholesky_lower (matrix : list (list num))
  : result (list (list num)) :=
  let size := length matrix in
  for_each (seq 0 size) (cholesky_row matrix)
           (replicate size (replicate size float_zero)).

(** [decompose_cholesky], lines 6-97. *)
Definition decompose_cholesky (matrix_aug : list (list num))
  : result (list num * list (list num) * list (list num)) :=
  '(matrix, vector) ← separateAugmented matrix_aug;
  vector ← flatten_rhs vector;
  lower ← cholesky_lower matrix;
  upper ← compute_transpose lower;
  y ← forward_substitution lower vector;
  x ← backward_substitution upper y;
  Ok (x, lower, upper).

(** [[random.uniform(-1, 1) for _ in range(n)]] *)
Fixpoint draw_vector (n : nat) (g : rng) : list num * rng :=
  match n with
  | 0 => ([], g)
  | S n' =>
      let '(v, g1) := uniform (of_int (-1)) (of_int 1) g in
      let '(vs, g2) := draw_vector n' g1 in
      (v :: vs, g2)
  end.

(** Lines 133-136: the quadratic form of [matrix] at [random_vector]. *)
Definition quadratic_form (matrix : list (list num))
    (random_vector : list num) : result num :=
  py_sum (λ i,
    vi ← index random_vector i;
    inner ← py_sum (λ j,
               row ← index matrix i; mij ← index row j;
               vj ← index random_vector j;
               Ok (mij ⊗ vj)) (seq 0 (length matrix));
    Ok (vi ⊗ inner)) (seq 0 (length matrix)).

(** [x is y or x == y] for the item [x] of [matrix] at [i][j] and the item
    [y] of its transpose there.  [compute_transpose] puts the object
    [matrix[j][i]] at [i][j]: on the diagonal the two items are one object,
    and [is] holds whatever the value.  Off the diagonal the two places of
    the caller's matrix are taken to hold two objects, so that the values
    decide; one object stored at both places is equal to itself by value
    unless it is a NaN. *)
Definition same_item (i j : nat) (x y : num) : bool :=
  bool_decide (i = j) || neqb x y.

(** [matrix == transpose_matrix], line 128: the rows are different list
    objects and are compared item by item. *)
Definition matrix_eqb (matrix transpose_matrix : list (list num)) : bool :=
  list_eqb (λ i, list_eqb (same_item i) 0) 0 matrix transpose_matrix.

(** [check_symmetric_positive_definite], lines 100-138. *)
Definition check_symmetric_positive_definite (matrix : list (list num))
    (g : rng) : result (bool * rng) :=
  transpose_matrix ← compute_transpose matrix;
  if negb (matrix_eqb matrix transpose_matrix) then
    Ok (false, g)
  else
    let '(random_vector, g') := draw_vector (length matrix) g in
    q ← quadratic_form matrix random_vector;
    positive ← ngt q (of_int 0);
    Ok (positive, g').

(** The body of the loop of [execute_main], lines 156-167, up to the
    [print]: the method name and the solution it is about to report. *)
Definition solve_one (matrix : list (list num)) (g : rng)
  : result (string * list num * rng) :=
  '(A, b) ← separateAugmented matrix;
  _ ← flatten_rhs b;
  '(spd, g') ← check_symmetric_positive_definite A g;
  if (spd : bool) then
    '(solution, _, _) ← decompose_cholesky matrix;
    Ok ("Cholesky"%string, solution, g')
  else
    solution ← Doolittle matrix;
    Ok ("Doolittle"%string, solution, g').

(** The loop of lines 155-169 over [enumerate(matrices, start=index)]:
    the lines printed, and the exception that ended the run if any. *)
Fixpoint execute_loop (matrices : list (list (list num))) (index : nat)
    (g : rng) : list (report num) * option exn :=
  match matrices with
  | [] => ([], None)
  | matrix :: rest =>
      match solve_one matrix g with
      | Raise e => ([], Some e)
      | Ok (method_name, solution, g') =>
          let '(out, r) := execute_loop rest (S index) g' in
          (Report index method_name solution :: out, r)
      end
  end.

(** The two systems of line 150-153. *)
Definition matrices : list (list (list num)) :=
  map (map (map of_int))
    [ [ [1; -1; 3; 2; 15]; [-1; 5; -5; -2; -35];
        [3; -5; 19; 3; 94]; [2; -2; 3; 21; 1] ];
      [ [4; 2; 4; 0; 20]; [2; 2; 3; 2; 36];
        [4; 3; 6; 3; 60]; [0; 2; 3; 9; 122] ] ]%Z.

(** [execute_main], lines 141-169. *)
Definition execute_main (g : rng) : list (report num) * option exn :=
  execute_loop matrices 1 g.

End Program.

(** ** A scripted generator

    [random.uniform] replayed from a list of samples prepared in advance;
    once the list is used up the lower bound is returned. *)
Definition scripted_uniform {num} (lo hi : num) (tape : list num)
  : num * list num :=
  match tape with
  | x :: tape' => (x, tape')
  | [] => (lo, [])
  end.

(** ** The split of an augmented matrix *)

(** A row without its last entry, and that entry; a row with no entry has
    nothing to split and raises [IndexError]. *)
Definition split_last {A} (row : list A) : result (list A * A) :=
  match last row with
  | Some x => Ok (removelast row, x)
  | None => Raise IndexError
  end.

(** Modelled from the spec: [Gauss_Seidel.separateAugmented] is not part of
    the sources; section 4.1 gives [splitAugmented(Aug) → (A, b)] with [A]
    all columns except the last and [b] the last column as a vector, for an
    input with at least one row and width at least two. *)
Definition splitAugmented {num} (Aug : list (list num))
  : result (list (list num) * rhs num) :=
  rows ← list_comp split_last Aug;
  Ok (map fst rows, Flat (map snd rows)).

(** Modelled from the spec: the same split of section 4.1 when the last
    column comes back as a column matrix, one single-entry list per row,
    the shape that lines 73-75 and 158-160 flatten. *)
Definition splitAugmented_column {num} (Aug : list (list num))
  : result (list (list num) * rhs num) :=
  rows ← list_comp split_last Aug;
  Ok (map fst rows, Nested (map (λ r, [snd r]) rows)).

(** ** Python's float and complex numbers

    binary64 floats, with the complex numbers Python falls back to.  An int
    is represented by the float it converts to, which is exact below 2^53
    (an int too large for a float is not represented).  The arithmetic is
    IEEE 754 with rounding to nearest.  CPython sorts out the special cases
    of [**] itself and then calls the C library's [pow]; the correctly
    rounded product and square root stand in for [pow(x, 2.0)] and
    [pow(x, 0.5)], which they equal whenever the exact result is a float
    (the C library may differ from them in the last bit otherwise).  [sum]
    adds from the left, as CPython does up to version 3.11. *)
Module PyFloat.

Inductive pynum : Set :=
  | Flt (f : float)
  | Cpx (re im : float).

Definition Z2float (z : Z) : float :=
  SF2Prim (binary_normalize prec emax z 0 false).

(** The coercion of a float operand that meets a complex one. *)
Definition parts (x : pynum) : float * float :=
  match x with
  | Flt f => (f, 0%float)
  | Cpx re im => (re, im)
  end.

Definition lift2 (real : float → float → float)
    (cplx : float * float → float * float → float * float)
    (x y : pynum) : pynum :=
  match x, y with
  | Flt a, Flt b => Flt (real a b)
  | _, _ => let '(re, im) := cplx (parts x) (parts y) in Cpx re im
  end.

Definition c_sum (a b : float * float) : float * float :=
  (a.1 + b.1, a.2 + b.2)%float.
Definition c_diff (a b : float * float) : float * float :=
  (a.1 - b.1, a.2 - b.2)%float.
Definition c_prod (a b : float * float) : float * float :=
  (a.1 * b.1 - a.2 * b.2, a.1 * b.2 + a.2 * b.1)%float.

(** [_Py_c_quot]: the quotient scaled by the larger component of the
    divisor. *)
Definition c_quot (a b : float * float) : float * float :=
  if (abs b.2 <=? abs b.1)%float then
    let ratio := (b.2 / b.1)%float in
    let denom := (b.1 + b.2 * ratio)%float in
    ((a.1 + a.2 * ratio) / denom, (a.2 - a.1 * ratio) / denom)%float
  else if (abs b.1 <=? abs b.2)%float then
    let ratio := (b.1 / b.2)%float in
    let denom := (b.1 * ratio + b.2)%float in
    ((a.1 * ratio + a.2) / denom, (a.2 * ratio - a.1) / denom)%float
  else (nan, nan).

Definition zero (x : pynum) : bool :=
  match x with
  | Flt f => (f =? 0)%float
  | Cpx re im => (re =? 0)%float && (im =? 0)%float
  end.

Definition is_nan (f : float) : bool := negb (f =? f)%float.
Definition is_inf (f : float) : bool := (abs f =? infinity)%float.

(** [_Py_ADJUST_ERANGE2] after a complex power: a result with an infinite
    part raises [OverflowError]. *)
Definition complex_result (r : float * float) : result pynum :=
  if is_inf r.1 || is_inf r.2 then Raise OverflowError else Ok (Cpx r.1 r.2).

(** [x ** 2].  For a float, [float_pow]: a NaN, an infinity, a zero and
    [±1.0] are answered without the C library; otherwise [pow(|x|, 2.0)],
    and [OverflowError] when it is infinite.  For a complex number,
    [c_powu]: the product [x * x], multiplied into [1+0j]. *)
Definition square_power (x : pynum) : result pynum :=
  match x with
  | Flt f =>
      if is_nan f then Ok (Flt f)
      else if is_inf f then Ok (Flt infinity)
      else if (f =? 0)%float then Ok (Flt 0)
      else if (abs f =? 1)%float then Ok (Flt 1)
      else
        let ix := (abs f * abs f)%float in
        if is_inf ix then Raise OverflowError else Ok (Flt ix)
  | Cpx re im => complex_result (c_prod (1, 0)%float (c_prod (re, im) (re, im)))
  end.

(** [cos(pi * 0.5)] in binary64. *)
Definition cos_half_pi : float := 0x1.1a62633145c07p-54%float.

(** [x ** 0.5].  For a float, [float_pow]: a NaN, an infinity (of either
    sign), a zero and [1.0] are answered without the C library; a positive
    base gives [pow(x, 0.5)]; a negative base goes through [_Py_c_pow],
    modulus [pow(-x, 0.5)] and phase [pi * 0.5], and both parts of the
    result are finite.  For a complex base, where [_Py_c_pow] goes through
    [hypot], [atan2], [cos] and [sin], the principal root is computed
    algebraically, and the last bits may differ. *)
Definition half_power (x : pynum) : result pynum :=
  match x with
  | Flt f =>
      if is_nan f then Ok (Flt f)
      else if is_inf f then Ok (Flt infinity)
      else if (f =? 0)%float then Ok (Flt 0)
      else if (f <? 0)%float then
        let len := PrimFloat.sqrt (- f) in
        Ok (Cpx (len * cos_half_pi) (len * 1))
      else if (f =? 1)%float then Ok (Flt 1)
      else Ok (Flt (PrimFloat.sqrt f))
  | Cpx re im =>
      if (re =? 0)%float && (im =? 0)%float then Ok (Cpx 0 0)
      else
        let m := PrimFloat.sqrt (re * re + im * im) in
        if (0 <=? re)%float then
          let t := PrimFloat.sqrt ((m + re) / 2) in
          complex_result (t, im / (2 * t))
        else
          let t := PrimFloat.sqrt ((m - re) / 2) in
          complex_result (abs im / (2 * t), if (im <? 0)%float then - t else t)
  end%float.

Definition equal (x y : pynum) : bool :=
  let '(a, b) := parts x in
  let '(c, d) := parts y in
  ((a =? c) && (b =? d))%float.

Definition greater (x y : pynum) : result bool :=
  match x, y with
  | Flt a, Flt b => Ok (b <? a)%float
  | _, _ => Raise TypeError
  end.

#[export] Instance number : Number pynum := {|
  of_int z := Flt (Z2float z);
  float_zero := Flt 0;
  nadd := lift2 PrimFloat.add c_sum;
  nsub := lift2 PrimFloat.sub c_diff;
  nmul := lift2 PrimFloat.mul c_prod;
  ndiv := lift2 PrimFloat.div c_quot;
  is_zero := zero;
  pow_two := square_power;
  pow_half := half_power;
  neqb := equal;
  ngt := greater;
|}.

End PyFloat.

(** ** Reading vectors and matrices in statements *)

Section Reading.

Context {num : Type} `{Number num}.

(** [v[i]], and [0.0] outside the vector. *)
Definition nth_num (v : list num) (i : nat) : num :=
  default float_zero (v !! i).

(** [m[i][j]], and [0.0] outside the matrix. *)
Definition entry (m : list (list num)) (i j : nat) : num :=
  nth_num (default [] (m !! i)) j.

(** [sum(xs)] *)
Definition sum_list (xs : list num) : num :=
  fold_left nadd xs (of_int 0).

(** [sum(f(k) for k in ks)] when no term raises. *)
Definition sigma (f : nat → num) (ks : list nat) : num :=
  sum_list (map f ks).

(** [m] has [n] rows of [n] entries. *)
Definition square (n : nat) (m : list (list num)) : Prop :=
  length m = n ∧ Forall (λ row, length row = n) m.

End Reading.

(** ** The recurrences and invariants of the statements *)

Section Vocabulary.

Context {num : Type} `{Number num}.

(** The forward recurrence at index [i]. *)
Definition forward_rec (T : list (list num)) (b y : list num) (i : nat) : Prop :=
  nth_num y i
  = ndiv (nth_num b i ⊖ sigma (λ j, entry T i j ⊗ nth_num y j) (seq 0 i))
         (entry T i i).

(** The backward recurrence at index [i]. *)
Definition backward_rec (T : list (list num)) (b x : list num) (i : nat) : Prop :=
  nth_num x i
  = ndiv (nth_num b i
          ⊖ sigma (λ j, entry T i j ⊗ nth_num x j)
                   (seq (i + 1) (length b - (i + 1))))
         (entry T i i).

(** [e] is raised by [x ** 2] or by [x ** 0.5] for some [x]. *)
Definition power_error (e : exn) : Prop :=
  (∃ x, pow_two x = Raise e) ∨ (∃ x, pow_half x = Raise e).

(** The Cholesky recurrence at cell [(i, j)] of the lower triangle.  On the
    diagonal, [sq k] is the value of [L[i][k] ** 2], and
    [(A[i][i] - sum of the sq k) ** 0.5] returns [L[i][i]]. *)
Definition chol_rec (A L : list (list num)) (i j : nat) : Prop :=
  if decide (i = j) then
    ∃ sq : nat → num,
      (∀ k, k < j → pow_two (entry L i k) = Ok (sq k))
      ∧ pow_half (entry A i j ⊖ sigma sq (seq 0 j)) = Ok (entry L i j)
  else
    entry L i j
    = ndiv (entry A i j ⊖ sigma (λ k, entry L i k ⊗ entry L j k) (seq 0 j))
           (entry L j j).

(** Cell [(a, b)] of the lower triangle is written before the run reaches
    cell [(i, j)]. *)
Definition before (a b i j : nat) : Prop := b ≤ a ∧ (a < i ∨ (a = i ∧ b < j)).

(** The state of the factor when the run reaches cell [(i, j)]: the cells
    written so far satisfy their recurrence, the others still hold [0.0]. *)
Definition chol_inv (n : nat) (A : list (list num)) (i j : nat)
    (L : list (list num)) : Prop :=
  square n L
  ∧ (∀ a b, before a b i j → chol_rec A L a b)
  ∧ (∀ a b, ¬ before a b i j → entry L a b = float_zero).

(** The factor after the first [k] passes of the outer loop. *)
Definition cholesky_rows (matrix : list (list num)) (k : nat)
  : result (list (list num)) :=
  let size := length matrix in
  for_each (seq 0 k) (cholesky_row matrix)
           (replicate size (replicate size float_zero)).

(** The transpose of an [n]-column matrix, entry by entry. *)
Definition transpose (n : nat) (m : list (list num)) : list (list num) :=
  map (λ i, map (λ j, entry m j i) (seq 0 (length m))) (seq 0 n).

(** [A == transpose(A)] entry by entry. *)
Definition symmetricb (n : nat) (m : list (list num)) : bool :=
  forallb (λ i, forallb (λ j, neqb (entry m i j) (entry m j i)) (seq 0 n))
          (seq 0 n).

(** Every entry passes Python's comparison with its mirror entry: the same
    place, or equal values. *)
Definition mirrorb (n : nat) (m : list (list num)) : bool :=
  forallb (λ i, forallb (λ j, same_item i j (entry m i j) (entry m j i))
                        (seq 0 n))
          (seq 0 n).

(** The value of the quadratic form at [v], as the two nested sums. *)
Definition quadratic_value (n : nat) (A : list (list num)) (v : list num) : num :=
  sigma (λ i, nth_num v i ⊗ sigma (λ j, entry A i j ⊗ nth_num v j) (seq 0 n))
        (seq 0 n).

(** [L] has [n] rows of [n] entries and is zero above the diagonal. *)
Definition lower_triangular (n : nat) (L : list (list num)) : Prop :=
  square n L ∧ ∀ i j, i < j → entry L i j = float_zero.

(** [[sum(A[i][j] * x[j] for j in range(n)) for i in range(n)]] *)
Definition mat_vec (n : nat) (A : list (list num)) (x : list num) : list num :=
  map (λ i, sigma (λ j, entry A i j ⊗ nth_num x j) (seq 0 n)) (seq 0 n).

(** A stand-in for the Doolittle solver in runs that never reach it. *)
Definition no_solver (matrix : list (list num)) : result (list num) :=
  Raise TypeError.

End Vocabulary.

(** ** Symmetric positive definite matrices of ints

    The mathematics of an input matrix of ints, over the real numbers. *)

(** [f 0 + ... + f (m - 1)] *)
Fixpoint Rsum (f : nat → R) (m : nat) : R :=
  match m with
  | O => 0%R
  | S m' => (Rsum f m' + f m')%R
  end.

Section RealVocabulary.

Local Open Scope R_scope.

(** [B[i][j]] as a real number, and [0] outside the matrix. *)
Definition int_entry (B : list (list Z)) (i j : nat) : R :=
  IZR (default 0%Z (default [] (B !! i) !! j)).


(** [vᵗ·B·v > 0] for every real vector [v] that is not zero. *)
Definition positive_definite (n : nat) (B : list (list Z)) : Prop :=
  ∀ v : nat → R, (∃ i, (i < n)%nat ∧ v i ≠ 0) →
    0 < Rsum (λ i, v i * Rsum (λ j, int_entry B i j * v j) n) n.

End RealVocabulary.

(** ** Shapes *)

Section Shapes.

Context {num : Type} `{Number num}.

(** [m] has [r] rows of [c] entries. *)
Definition rectangular (r c : nat) (m : list (list num)) : Prop :=
  length m = r ∧ Forall (λ row, length row = c) m.

End Shapes.

(** * hw3b.py and hw3a.py: Simpson's rule, the t-distribution and the bisection

    [simpson_integration] and [t_cdf] of [src/hw3b.py] and the bisection
    loop of [main] in [src/hw3a.py], written against the same numbers.
    The integrand, the density (built on [math.gamma]) and the function
    whose root is sought (built on the module [numericalMethods]) are
    arguments that return a number or raise. *)

(** ** The further numbers of hw3a.py and hw3b.py

    [float_lit m e] is the float literal [m]e[e], the float nearest to
    [m·10^e]; [nabs] is [abs]. *)

Class Decimal (num : Type) : Type := {
  float_lit : Z → Z → num;
  nabs : num → num;
}.

Module PyFloatDecimal.

Import PyFloat.

(** Both [m] and the power of ten are exact floats for the literals of the
    program, so the one rounding of the quotient gives the nearest float.
    [abs] of a complex number is its modulus. *)
#[export] Instance decimal : Decimal pynum := {|
  float_lit m e :=
    if (0 <=? e)%Z then Flt (Z2float (m * 10 ^ e))
    else Flt (Z2float m / Z2float (10 ^ (- e)));
  nabs x :=
    match x with
    | Flt f => Flt (abs f)
    | Cpx re im => Flt (PrimFloat.sqrt (re * re + im * im))
    end;
|}.

End PyFloatDecimal.

(** [range(lo, hi)] *)
Definition range_from (lo hi : Z) : list Z :=
  map (λ k, (lo + Z.of_nat k)%Z) (seq 0 (Z.to_nat (hi - lo))).

Section Quadrature.

Context {num : Type} `{Number num} `{Decimal num}.

(** [x / N] for an int [N]. *)
Definition py_div_int (x : num) (N : Z) : result num :=
  if (N =? 0)%Z then Raise ZeroDivisionError else Ok (ndiv x (of_int N)).

(** [simpson_integration] of hw3b.py, lines 20-43.  The divisor [3.0] of
    the last line is a literal that is not zero. *)
Definition simpson_integration (f : num → result num) (a b : num) (N : Z)
  : result num :=
  let N := if Z.odd N then (N + 1)%Z else N in
  h ← py_div_int (b ⊖ a) N;
  fa ← f a;
  fb ← f b;
  let total := fa ⊕ fb in
  sums ← for_each (range_from 1 N) (λ i sums,
            let x_i := a ⊕ of_int i ⊗ h in
            fx_i ← f x_i;
            if Z.odd i then Ok (sums.1 ⊕ fx_i, sums.2)
            else Ok (sums.1, sums.2 ⊕ fx_i))
          (float_zero, float_zero);
  let total := total ⊕ (float_lit 4 0 ⊗ sums.1 ⊕ float_lit 2 0 ⊗ sums.2) in
  Ok (ndiv h (float_lit 3 0) ⊗ total).

(** [min(x, y)]: [y] when [y < x], else [x]. *)
Definition py_min (x y : num) : result num :=
  smaller ← ngt x y;
  Ok (if (smaller : bool) then y else x).

(** [t_cdf] of hw3b.py, lines 45-63; the density [t_pdf], built on
    [math.gamma], is a parameter. *)
Definition t_cdf (t_pdf : num → num → result num) (z m : num) : result num :=
  far ← ngt (of_int (-10)) z;
  NEG_BOUND ← (if (far : bool)
               then py_min (z ⊖ float_lit 1 0) (float_lit (-10) 0)
               else Ok (float_lit (-10) 0));
  simpson_integration (λ x, t_pdf x m) NEG_BOUND z 300.

(** The bisection of hw3a.py, lines 98-105, with the iterations left. *)
Fixpoint bisection_loop (f : num → result num) (fuel : nat)
    (left right : num) : result (num * num) :=
  match fuel with
  | O => Ok (left, right)
  | S fuel' =>
      let mid := float_lit 5 (-1) ⊗ (left ⊕ right) in
      fl ← f left;
      fm ← f mid;
      negative ← ngt (of_int 0) (fl ⊗ fm);
      let bounds := if (negative : bool) then (left, mid) else (mid, right) in
      close ← ngt (float_lit 1 (-7)) (nabs (bounds.2 ⊖ bounds.1));
      if (close : bool) then Ok bounds
      else bisection_loop f fuel' bounds.1 bounds.2
  end.

(** Lines 98-106 of hw3a.py: fifty iterations at most, then the
    midpoint. *)
Definition bisection (f : num → result num) (left right : num) : result num :=
  bounds ← bisection_loop f 50 left right;
  Ok (float_lit 5 (-1) ⊗ (bounds.1 ⊕ bounds.2)).

End Quadrature.

(** ** Trial runs on binary64 *)

Section Trials.
Import PyFloat.

Let solve := decompose_cholesky (num := pynum) splitAugmented.

Example trial_2x2 :
  solve (map (map of_int) [[4; 2; 4]; [2; 5; 7]]%Z)
  = Ok ([Flt 0.375; Flt 1.25],
        [[Flt 2; Flt 0]; [Flt 1; Flt 2]],
        [[Flt 2; Flt 1]; [Flt 0; Flt 2]])%float.
Proof. vm_compute. reflexivity. Qed.

Example trial_first_system :
  fst <$> (fst <$> solve (matrices !!! 0))
  = Ok [Flt 2; Flt (-3); Flt 4; Flt (-1)]%float.
Proof. vm_compute. reflexivity. Qed.

Example trial_zero_pivot :
  solve (map (map of_int) [[0; 1; 1]; [1; 1; 2]]%Z) = Raise ZeroDivisionError.
Proof. vm_compute. reflexivity. Qed.

End Trials.

(** * Properties *)

(** ** Lists and loops *)

(** Reduce a sequencing step whose first action has returned or raised. *)
Ltac bind_step := cbn [mbind result_bind].

Lemma index_Ok {A} (l : list A) i x : index l i = Ok x ↔ l !! i = Some x.
Proof. unfold index. destruct (l !! i); split; congruence. Qed.

Lemma index_lt {A} (l : list A) i : i < length l → ∃ x, l !! i = Some x ∧ index l i = Ok x.
Proof.
  intros Hi. destruct (lookup_lt_is_Some_2 l i Hi) as [x Hx].
  exists x. split; [done|]. by apply index_Ok.
Qed.

Lemma index_ge {A} (l : list A) i : length l ≤ i → index l i = Raise IndexError.
Proof. intros Hi. unfold index. by rewrite lookup_ge_None_2. Qed.

Lemma store_lt {A} (l : list A) i v : i < length l → store l i v = Ok (<[i:=v]> l).
Proof. intros Hi. unfold store. by rewrite decide_True. Qed.

Lemma for_each_app {A S} (xs ys : list A) (body : A → S → result S) s :
  for_each (xs ++ ys) body s = s' ← for_each xs body s; for_each ys body s'.
Proof.
  revert s. induction xs as [|x xs IH]; intros s; simpl; [done|].
  destruct (body x s); simpl; [apply IH|done].
Qed.

Lemma for_each_snoc {A S} (xs : list A) x (body : A → S → result S) s :
  for_each (xs ++ [x]) body s = s' ← for_each xs body s; body x s'.
Proof.
  rewrite for_each_app. destruct (for_each xs body s) as [s'|e]; simpl; [|done].
  by destruct (body x s').
Qed.

Lemma for_each_ext {A S} (xs : list A) (body body' : A → S → result S) s :
  (∀ x s', x ∈ xs → body x s' = body' x s') →
  for_each xs body s = for_each xs body' s.
Proof.
  revert s. induction xs as [|x xs IH]; intros s Hbody; simpl; [done|].
  rewrite Hbody by (apply elem_of_cons; by left).
  destruct (body' x s) as [s'|e]; bind_step; [|done].
  apply IH. intros x' s'' Hx'. apply Hbody, elem_of_cons. by right.
Qed.

(** ** Entries and sums *)

Section Core.
Context {num : Type} `{Number num}.

Lemma nth_num_lookup (v : list num) i x : v !! i = Some x → nth_num v i = x.
Proof. unfold nth_num. by intros ->. Qed.

Lemma entry_lookup (m : list (list num)) i j row x :
  m !! i = Some row → row !! j = Some x → entry m i j = x.
Proof. unfold entry. intros -> ?. by apply nth_num_lookup. Qed.

Lemma square_row n (m : list (list num)) i :
  square n m → i < n → ∃ row, m !! i = Some row ∧ length row = n.
Proof.
  intros [Hlen Hrows] Hi.
  destruct (lookup_lt_is_Some_2 m i) as [row Hrow]; [lia|].
  exists row. split; [done|].
  rewrite Forall_lookup in Hrows. eauto.
Qed.

Lemma square_entry n (m : list (list num)) i j :
  square n m → i < n → j < n →
  ∃ row, m !! i = Some row ∧ row !! j = Some (entry m i j).
Proof.
  intros Hsq Hi Hj. destruct (square_row n m i Hsq Hi) as (row & Hrow & Hlen).
  exists row. split; [done|].
  destruct (lookup_lt_is_Some_2 row j) as [x Hx]; [lia|].
  by rewrite (entry_lookup m i j row x).
Qed.

Lemma nth_num_lt (v : list num) i : i < length v → v !! i = Some (nth_num v i).
Proof.
  intros Hi. destruct (lookup_lt_is_Some_2 v i Hi) as [x Hx].
  by rewrite (nth_num_lookup v i x).
Qed.

Lemma nth_num_insert_eq (v : list num) i x :
  i < length v → nth_num (<[i:=x]> v) i = x.
Proof. intros. apply nth_num_lookup. by apply list_lookup_insert_eq. Qed.

Lemma nth_num_insert_ne (v : list num) i j x :
  i ≠ j → nth_num (<[i:=x]> v) j = nth_num v j.
Proof. intros. unfold nth_num. by rewrite list_lookup_insert_ne. Qed.

Lemma sum_list_snoc (xs : list num) x : sum_list (xs ++ [x]) = sum_list xs ⊕ x.
Proof. unfold sum_list. by rewrite fold_left_app. Qed.

Lemma py_sum_from (term : nat → result num) (f : nat → num) ks acc :
  (∀ k, k ∈ ks → term k = Ok (f k)) →
  for_each ks (λ k a, t ← term k; Ok (a ⊕ t)) acc
  = Ok (fold_left nadd (map f ks) acc).
Proof.
  revert acc. induction ks as [|k ks IH]; intros acc Hterm; simpl; [done|].
  rewrite (Hterm k) by (apply elem_of_cons; by left). simpl. apply IH.
  intros k' Hk'. apply Hterm. apply elem_of_cons. by right.
Qed.

Lemma py_sum_Ok (term : nat → result num) (f : nat → num) ks :
  (∀ k, k ∈ ks → term k = Ok (f k)) → py_sum term ks = Ok (sigma f ks).
Proof. apply py_sum_from. Qed.

Lemma py_sum_ext (term term' : nat → result num) ks :
  (∀ k, k ∈ ks → term k = term' k) → py_sum term ks = py_sum term' ks.
Proof.
  intros Hterm. unfold py_sum. apply for_each_ext.
  intros k acc Hk. by rewrite Hterm.
Qed.

(** A sum either adds the values of all its terms, or raises what its first
    failing term raises. *)
Lemma py_sum_cases (term : nat → result num) ks :
  (∃ f, (∀ k, k ∈ ks → term k = Ok (f k)) ∧ py_sum term ks = Ok (sigma f ks))
  ∨ (∃ k e, k ∈ ks ∧ term k = Raise e ∧ py_sum term ks = Raise e).
Proof.
  set (f := λ k, match term k with Ok t => t | Raise _ => float_zero end).
  unfold py_sum, sigma, sum_list. generalize (of_int 0) as acc.
  induction ks as [|k ks IH]; intros acc.
  - left. exists f. split; [|done]. intros k Hk. by apply elem_of_nil in Hk.
  - cbn [for_each]. destruct (term k) as [t|e] eqn:Hk; bind_step.
    + destruct (IH (acc ⊕ t)) as [(f' & Hall & Hrun)|(k' & e & Hk' & He & Hrun)].
      * left. exists f. split.
        -- intros k' [->|Hk']%elem_of_cons; [unfold f; by rewrite Hk|].
           unfold f. by rewrite (Hall k' Hk').
        -- rewrite Hrun. cbn [map fold_left]. unfold f at 2. rewrite Hk.
           do 2 f_equal. apply map_ext_in. intros k' Hk'%list_elem_of_In.
           unfold f. by rewrite (Hall k' Hk').
      * right. exists k', e. split; [apply elem_of_cons; by right|done].
    + right. exists k, e. split; [apply elem_of_cons; by left|done].
Qed.

Lemma sigma_ext (f g : nat → num) ks :
  (∀ k, k ∈ ks → f k = g k) → sigma f ks = sigma g ks.
Proof.
  intros Hfg. unfold sigma. f_equal. apply map_ext_in.
  intros k Hk. apply Hfg. by apply list_elem_of_In.
Qed.

End Core.

(** Read [m[i][j]] of a square matrix in the goal. *)
Ltac read_entry HM i j :=
  let row := fresh "row" in
  let Hr := fresh "Hr" in
  let Hx := fresh "Hx" in
  destruct (square_entry _ _ i j HM) as (row & Hr & Hx); [lia..|];
  apply index_Ok in Hr, Hx; rewrite ?Hr; simpl; rewrite ?Hx; simpl.

(** ** The substitution loops *)

Section Subst.
Context {num : Type} `{Number num}.

Lemma index_entry n (T : list (list num)) i j :
  square n T → i < n → j < n →
  (row ← index T i; index row j) = Ok (entry T i j).
Proof.
  intros Hsq Hi Hj. destruct (square_entry n T i j Hsq Hi Hj) as (row & Hrow & Hx).
  apply index_Ok in Hrow, Hx. rewrite Hrow. simpl. done.
Qed.

Lemma index_nth (v : list num) i : i < length v → index v i = Ok (nth_num v i).
Proof. intros Hi. apply index_Ok. by apply nth_num_lt. Qed.

(** One pass of either substitution loop at row [i], reading the entries
    [js] of the vector under construction. *)
Lemma substitution_step n (T : list (list num)) (b v : list num) i js :
  square n T → length b = n → length v = n → i < n →
  (∀ j, j ∈ js → j < n) →
  (vi ← index b i;
   s ← py_sum (λ j, row ← index T i; tij ← index row j;
                    vj ← index v j; Ok (tij ⊗ vj)) js;
   row ← index T i; tii ← index row i;
   q ← py_div (vi ⊖ s) tii;
   store v i q)
  = if is_zero (entry T i i) then Raise ZeroDivisionError
    else Ok (<[i := ndiv (nth_num b i ⊖ sigma (λ j, entry T i j ⊗ nth_num v j) js)
                         (entry T i i)]> v).
Proof.
  intros Hsq Hb Hv Hi Hjs.
  rewrite index_nth by lia. simpl.
  rewrite (py_sum_Ok _ (λ j, entry T i j ⊗ nth_num v j)); simpl.
  2:{ intros j Hj. specialize (Hjs j Hj).
      destruct (square_entry n T i j Hsq Hi Hjs) as (row & Hrow & Hx).
      apply index_Ok in Hrow, Hx. rewrite Hrow. simpl. rewrite Hx. simpl.
      rewrite index_nth by lia. done. }
  destruct (square_entry n T i i Hsq Hi Hi) as (row & Hrow & Hx).
  apply index_Ok in Hrow, Hx. rewrite Hrow. simpl. rewrite Hx. simpl.
  unfold py_div. destruct (is_zero (entry T i i)); simpl; [done|].
  apply store_lt. lia.
Qed.

Lemma forward_prefix n (T : list (list num)) (b : list num) k :
  square n T → length b = n → k ≤ n →
  match for_each (seq 0 k) (λ i y,
      vi ← index b i;
      s ← py_sum (λ j, row ← index T i; lij ← index row j;
                       yj ← index y j; Ok (lij ⊗ yj)) (seq 0 i);
      row ← index T i; lii ← index row i;
      q ← py_div (vi ⊖ s) lii;
      store y i q) (replicate n float_zero) with
  | Ok y => length y = n
            ∧ ∀ i, i < k → is_zero (entry T i i) = false ∧ forward_rec T b y i
  | Raise e => e = ZeroDivisionError
               ∧ ∃ i, i < k ∧ is_zero (entry T i i) = true
  end.
Proof.
  intros Hsq Hb. induction k as [|k IH]; intros Hk.
  - simpl. split; [apply length_replicate|]. intros; lia.
  - rewrite seq_S, for_each_snoc. simpl.
    specialize (IH ltac:(lia)).
    destruct (for_each (seq 0 k) _ _) as [y|e]; simpl.
    + destruct IH as [Hy IH].
      rewrite (substitution_step n T b y k (seq 0 k)); try done; try lia.
      2:{ intros j Hj%elem_of_seq. lia. }
      destruct (is_zero (entry T k k)) eqn:Hz.
      * split; [done|]. exists k. split; [lia|done].
      * split; [by rewrite length_insert|].
        intros i Hi. destruct (decide (i = k)) as [->|Hne].
        -- split; [done|]. unfold forward_rec.
           rewrite nth_num_insert_eq by lia. f_equal. f_equal.
           apply sigma_ext. intros j Hj%elem_of_seq.
           rewrite nth_num_insert_ne by lia. done.
        -- destruct (IH i ltac:(lia)) as [Hzi Hrec]. split; [done|].
           unfold forward_rec in *.
           rewrite nth_num_insert_ne by lia. rewrite Hrec. f_equal. f_equal.
           apply sigma_ext. intros j Hj%elem_of_seq.
           rewrite nth_num_insert_ne by lia. done.
    + destruct IH as [-> (i & Hi & Hz)]. split; [done|]. exists i. split; [lia|done].
Qed.

Lemma backward_prefix n (T : list (list num)) (b : list num) k :
  square n T → length b = n → k ≤ n →
  match for_each (rev (seq (n - k) k)) (λ i x,
      vi ← index b i;
      s ← py_sum (λ j, row ← index T i; uij ← index row j;
                       xj ← index x j; Ok (uij ⊗ xj))
                 (seq (i + 1) (n - (i + 1)));
      row ← index T i; uii ← index row i;
      q ← py_div (vi ⊖ s) uii;
      store x i q) (replicate n float_zero) with
  | Ok x => length x = n
            ∧ ∀ i, n - k ≤ i < n →
                   is_zero (entry T i i) = false ∧ backward_rec T b x i
  | Raise e => e = ZeroDivisionError
               ∧ ∃ i, n - k ≤ i < n ∧ is_zero (entry T i i) = true
  end.
Proof.
  intros Hsq Hb. induction k as [|k IH]; intros Hk.
  - simpl. split; [apply length_replicate|]. intros; lia.
  - replace (seq (n - S k) (S k)) with ((n - S k) :: seq (n - k) k).
    2:{ simpl. f_equal. f_equal. lia. }
    simpl rev. rewrite for_each_snoc.
    specialize (IH ltac:(lia)).
    destruct (for_each (rev (seq (n - k) k)) _ _) as [x|e]; simpl.
    + destruct IH as [Hx IH].
      rewrite (substitution_step n T b x (n - S k)); try done; try lia.
      2:{ intros j Hj%elem_of_seq. lia. }
      destruct (is_zero (entry T (n - S k) (n - S k))) eqn:Hz.
      * split; [done|]. exists (n - S k). split; [lia|done].
      * split; [by rewrite length_insert|].
        intros i Hi. destruct (decide (i = n - S k)) as [->|Hne].
        -- split; [done|]. unfold backward_rec. rewrite Hb.
           rewrite nth_num_insert_eq by lia. f_equal. f_equal.
           apply sigma_ext. intros j Hj%elem_of_seq.
           rewrite nth_num_insert_ne by lia. done.
        -- destruct (IH i ltac:(lia)) as [Hzi Hrec]. split; [done|].
           unfold backward_rec in *. rewrite Hb in *.
           rewrite nth_num_insert_ne by lia. rewrite Hrec. f_equal. f_equal.
           apply sigma_ext. intros j Hj%elem_of_seq.
           rewrite nth_num_insert_ne by lia. done.
    + destruct IH as [-> (i & Hi & Hz)]. split; [done|]. exists i. split; [lia|done].
Qed.

End Subst.

(** ** The factorization loop *)

Section Chol.
Context {num : Type} `{Number num}.

Lemma entry_ge_row (m : list (list num)) i j : length m ≤ i → entry m i j = float_zero.
Proof. intros Hi. unfold entry. rewrite lookup_ge_None_2 by done. done. Qed.

Lemma entry_ge_col n (m : list (list num)) i j :
  square n m → n ≤ j → entry m i j = float_zero.
Proof.
  intros [Hlen Hrows] Hj. unfold entry, nth_num.
  destruct (m !! i) as [row|] eqn:Hrow; simpl; [|done].
  rewrite Forall_lookup in Hrows. specialize (Hrows i row Hrow).
  rewrite lookup_ge_None_2 by lia. done.
Qed.

Lemma store2_square n (L : list (list num)) i j v :
  square n L → i < n → j < n →
  ∃ L', store2 L i j v = Ok L' ∧ square n L'
        ∧ entry L' i j = v
        ∧ ∀ a b, (a, b) ≠ (i, j) → entry L' a b = entry L a b.
Proof.
  intros Hsq Hi Hj. destruct (square_row n L i Hsq Hi) as (row & Hrow & Hlen).
  destruct Hsq as [HL Hrows].
  exists (<[i := <[j := v]> row]> L). unfold store2.
  rewrite (proj2 (index_Ok L i row) Hrow). simpl.
  rewrite store_lt by lia. simpl. rewrite store_lt by lia.
  split; [done|]. split; [|split].
  - split; [by rewrite length_insert|].
    apply Forall_insert; [done|]. by rewrite length_insert.
  - unfold entry. rewrite list_lookup_insert_eq by lia. simpl.
    apply nth_num_insert_eq. lia.
  - intros a b Hab. unfold entry.
    destruct (decide (a = i)) as [->|Hne].
    + rewrite list_lookup_insert_eq by lia. rewrite Hrow. simpl.
      apply nth_num_insert_ne. congruence.
    + by rewrite list_lookup_insert_ne.
Qed.

Lemma chol_rec_frame (A L L' : list (list num)) a b :
  (∀ c d, d ≤ c → (c < a ∨ (c = a ∧ d ≤ b)) → entry L' c d = entry L c d) →
  b ≤ a → chol_rec A L a b → chol_rec A L' a b.
Proof.
  intros Hsame Hba. unfold chol_rec. destruct (decide (a = b)) as [->|Hne].
  - intros (sq & Hsq & Hroot). exists sq. split.
    + intros k Hk. rewrite Hsame by lia. by apply Hsq.
    + rewrite Hsame by lia. done.
  - intros Hrec. rewrite Hsame by lia. rewrite Hrec.
    rewrite (Hsame b b) by lia. f_equal. f_equal.
    apply sigma_ext. intros k Hk%elem_of_seq.
    rewrite (Hsame a k), (Hsame b k) by lia. done.
Qed.

Lemma cholesky_cell_step n (A L : list (list num)) i j :
  square n A → chol_inv n A i j L → j ≤ i → i < n →
  match cholesky_cell A i j L with
  | Ok L' => chol_inv n A i (S j) L'
             ∧ (i ≠ j → is_zero (entry L j j) = false)
             ∧ (∀ a b, a ≠ i → entry L' a b = entry L a b)
  | Raise e => (e = ZeroDivisionError ∧ i ≠ j
                ∧ is_zero (entry L j j) = true)
               ∨ (i = j ∧ power_error e)
  end.
Proof.
  intros HA (HL & Hdone & Hzero) Hji Hi. unfold cholesky_cell.
  assert (Hframe : ∀ v L', square n L' → entry L' i j = v →
            (∀ a b, (a, b) ≠ (i, j) → entry L' a b = entry L a b) →
            chol_rec A L' i j → chol_inv n A i (S j) L').
  { intros v L' HL' Hv Hother Hrec. split; [done|]. split.
    - intros a b Hab. destruct (decide ((a, b) = (i, j))) as [[= -> ->]|Hne]; [done|].
      assert (before a b i j) as Hab'.
      { destruct Hab as [? [?|[-> ?]]]; split; try lia.
        right. split; [done|]. destruct (decide (b = j)); [congruence|lia]. }
      apply (chol_rec_frame A L L'); [|apply Hab'|by apply Hdone].
      intros c d Hdc Hc. apply Hother. intros [= -> ->].
      destruct Hab' as [? [?|[-> ?]]]; lia.
    - intros a b Hab. rewrite Hother.
      + apply Hzero. intros [? [?|[-> ?]]]; apply Hab; split; try lia.
      + intros [= -> ->]. apply Hab. split; [lia|]. right. lia. }
  destruct (decide (i = j)) as [->|Hne].
  - rewrite (py_sum_ext _ (λ k, pow_two (entry L j k))).
    2:{ intros k Hk%elem_of_seq. read_entry HL j k. done. }
    destruct (py_sum_cases (λ k, pow_two (entry L j k)) (seq 0 j))
      as [(sq & Hsq & ->)|(k & e & Hk & He & ->)]; bind_step.
    2:{ right. split; [done|]. left. by exists (entry L j k). }
    read_entry HA j j.
    destruct (pow_half (entry A j j ⊖ sigma sq (seq 0 j))) as [root|e] eqn:Hroot;
      bind_step.
    2:{ right. split; [done|]. right. eauto. }
    destruct (store2_square n L j j root HL Hi Hi)
      as (L' & -> & HL' & Hv & Hother).
    split; [|split; [done|intros a b Ha; apply Hother; congruence]].
    apply (Hframe _ L' HL' Hv Hother).
    unfold chol_rec. rewrite decide_True by done. exists sq. split.
    + intros k Hk. rewrite Hother by (intros E; inversion E; lia).
      apply Hsq, elem_of_seq. lia.
    + by rewrite Hv.
  - rewrite (py_sum_Ok _ (λ k, entry L i k ⊗ entry L j k)); simpl.
    2:{ intros k Hk%elem_of_seq. read_entry HL i k. read_entry HL j k. done. }
    read_entry HA i j. read_entry HL j j.
    unfold py_div. destruct (is_zero (entry L j j)) eqn:Hz; simpl; [by left|].
    destruct (store2_square n L i j
      (ndiv (entry A i j ⊖ sigma (λ k, entry L i k ⊗ entry L j k) (seq 0 j))
            (entry L j j)) HL) as (L' & -> & HL' & Hv & Hother); [lia..|].
    split; [|split; [done|intros a b Ha; apply Hother; congruence]].
    apply (Hframe _ L' HL' Hv Hother).
    unfold chol_rec. rewrite decide_False by done. rewrite Hv.
    rewrite (Hother j j) by (intros E; inversion E; lia). f_equal. f_equal.
    apply sigma_ext. intros k Hk%elem_of_seq.
    rewrite (Hother i k), (Hother j k); [done|intros E; inversion E; lia..].
Qed.

Lemma cholesky_row_prefix n (A L0 : list (list num)) i j :
  square n A → chol_inv n A i 0 L0 → i < n → j ≤ S i →
  match for_each (seq 0 j) (cholesky_cell A i) L0 with
  | Ok L => chol_inv n A i j L
            ∧ (∀ b, b < j → b < i → is_zero (entry L0 b b) = false)
            ∧ (∀ a b, a ≠ i → entry L a b = entry L0 a b)
  | Raise e => (e = ZeroDivisionError
                ∧ ∃ b, b < j ∧ b < i ∧ is_zero (entry L0 b b) = true)
               ∨ (j = S i ∧ power_error e
                  ∧ ∀ b, b < i → is_zero (entry L0 b b) = false)
  end.
Proof.
  intros HA Hinv Hi. induction j as [|j IH]; intros Hj.
  - simpl. split; [done|]. split; [intros; lia|done].
  - rewrite seq_S, for_each_snoc. simpl. specialize (IH ltac:(lia)).
    destruct (for_each (seq 0 j) _ _) as [L|e]; simpl.
    + destruct IH as (HinvL & Hnz & Hrows).
      pose proof (cholesky_cell_step n A L i j HA HinvL ltac:(lia) Hi) as Hstep.
      destruct (cholesky_cell A i j L) as [L'|e].
      * destruct Hstep as (Hinv' & Hpiv & Hsame). split; [done|]. split.
        -- intros b Hb Hbi. destruct (decide (b = j)) as [->|Hne].
           ++ rewrite <- (Hrows j j) by lia. apply Hpiv. lia.
           ++ apply Hnz; lia.
        -- intros a b Ha. rewrite Hsame by done. by apply Hrows.
      * destruct Hstep as [(-> & Hne & Hz)|(-> & Hpow)].
        -- left. split; [done|]. exists j. split; [lia|]. split; [lia|].
           rewrite <- (Hrows j j) by lia. done.
        -- right. split; [done|]. split; [done|]. intros b Hb. apply Hnz; lia.
    + destruct IH as [(-> & b & ? & ? & ?)|(? & _)]; [|lia].
      left. split; [done|]. exists b. split; [lia|done].
Qed.



Lemma cholesky_lower_rows (A : list (list num)) :
  cholesky_lower A = cholesky_rows A (length A).
Proof. done. Qed.

Lemma chol_inv_next_row n (A L : list (list num)) i :
  chol_inv n A i (S i) L → chol_inv n A (S i) 0 L.
Proof.
  intros (HL & Hdone & Hzero). split; [done|]. split.
  - intros a b [? [?|[? ?]]]; [|lia]. apply Hdone. split; [done|lia].
  - intros a b Hab. apply Hzero. intros [? [?|[? ?]]]; apply Hab; split; lia.
Qed.

Lemma chol_inv_init n (A : list (list num)) :
  chol_inv n A 0 0 (replicate n (replicate n float_zero)).
Proof.
  split; [|split].
  - split; [apply length_replicate|]. apply Forall_replicate, length_replicate.
  - intros a b [? [?|[? ?]]]; lia.
  - intros a b _. unfold entry, nth_num.
    destruct (decide (a < n)) as [Ha|Ha].
    + rewrite lookup_replicate_2 by done. simpl.
      destruct (decide (b < n)) as [Hb|Hb].
      * by rewrite lookup_replicate_2.
      * by rewrite lookup_ge_None_2 by (rewrite length_replicate; lia).
    + by rewrite (lookup_ge_None_2 (replicate n (replicate n float_zero)) a)
        by (rewrite length_replicate; lia).
Qed.

Lemma cholesky_rows_prefix n (A : list (list num)) k :
  square n A → k ≤ n →
  match cholesky_rows A k with
  | Ok L => chol_inv n A k 0 L
            ∧ ∀ b, S b < k → is_zero (entry L b b) = false
  | Raise e => (e = ZeroDivisionError
                ∧ ∃ b L', S b < k ∧ cholesky_rows A (S b) = Ok L'
                          ∧ is_zero (entry L' b b) = true)
               ∨ power_error e
  end.
Proof.
  intros HA. pose proof HA as [Hlen _]. unfold cholesky_rows. rewrite Hlen.
  induction k as [|k IH]; intros Hk.
  - simpl. split; [apply chol_inv_init|]. intros; lia.
  - rewrite seq_S, for_each_snoc. simpl. specialize (IH ltac:(lia)).
    destruct (for_each (seq 0 k) _ _) as [L0|e] eqn:Hrun; simpl.
    + destruct IH as (Hinv & Hnz).
      pose proof (cholesky_row_prefix n A L0 k (S k) HA Hinv ltac:(lia) ltac:(lia))
        as Hrow.
      unfold cholesky_row. rewrite Nat.add_1_r.
      destruct (for_each (seq 0 (S k)) _ L0) as [L|e].
      * destruct Hrow as (HinvL & Hpiv & Hsame). split.
        -- by apply chol_inv_next_row.
        -- intros b Hb. rewrite Hsame by lia. apply Hpiv; lia.
      * destruct Hrow as [(-> & b & ? & Hbk & Hz)|(_ & Hpow & _)];
          [|by right].
        left. split; [done|].
        destruct (decide (S b < k)) as [Hlt|Hge].
        -- rewrite Hnz in Hz by done. done.
        -- assert (k = S b) as Hkb by lia. exists b, L0. split; [lia|].
           split; [|done]. subst k. exact Hrun.
    + destruct IH as [(-> & b & L' & ? & ? & ?)|Hpow]; [|by right].
      left. split; [done|]. exists b, L'. split; [lia|done].
Qed.

End Chol.

(** ** Transpose and the symmetry test *)

Section Transp.
Context {num : Type} `{Number num}.

Lemma list_comp_map {A B} (f : A → result B) (g : A → B) xs :
  (∀ x, x ∈ xs → f x = Ok (g x)) → list_comp f xs = Ok (map g xs).
Proof.
  induction xs as [|x xs IH]; intros Hf; simpl; [done|].
  rewrite Hf by (apply elem_of_cons; by left). simpl.
  rewrite IH; [done|]. intros y Hy. apply Hf, elem_of_cons. by right.
Qed.

Lemma compute_transpose_square n (m : list (list num)) :
  square n m → 0 < n → compute_transpose m = Ok (transpose n m).
Proof.
  intros Hsq Hn. unfold compute_transpose, transpose.
  destruct (square_row n m 0 Hsq Hn) as (row0 & Hrow0 & Hlen0).
  rewrite (proj2 (index_Ok m 0 row0) Hrow0). simpl. rewrite Hlen0.
  pose proof Hsq as [Hlen _].
  apply list_comp_map. intros i Hi%elem_of_seq.
  apply list_comp_map. intros j Hj%elem_of_seq.
  read_entry Hsq j i. done.
Qed.

Lemma transpose_square n (m : list (list num)) :
  square n m → square n (transpose n m).
Proof.
  intros [Hlen _]. unfold transpose. split.
  - by rewrite length_map, length_seq.
  - apply Forall_forall. intros row Hrow.
    apply list_elem_of_fmap in Hrow as (i & -> & _).
    by rewrite length_map, length_seq.
Qed.

Lemma entry_transpose n (m : list (list num)) i j :
  square n m → entry (transpose n m) i j = entry m j i.
Proof.
  intros Hsq. pose proof Hsq as [Hlen _]. unfold transpose.
  destruct (decide (i < n)) as [Hi|Hi]; [destruct (decide (j < n)) as [Hj|Hj]|].
  - apply (entry_lookup _ i j (map (λ j, entry m j i) (seq 0 (length m)))).
    + rewrite list_lookup_fmap, lookup_seq_lt by done. done.
    + rewrite list_lookup_fmap, lookup_seq_lt by lia. done.
  - rewrite (entry_ge_row m j i) by lia.
    apply (entry_ge_col n); [|lia]. by apply transpose_square.
  - rewrite (entry_ge_col n m j i) by (done || lia).
    apply entry_ge_row. rewrite length_map, length_seq. lia.
Qed.

Lemma list_eqb_lookup {A} (eq : nat → A → A → bool) k (l1 l2 : list A) :
  list_eqb eq k l1 l2 = true
  ↔ length l1 = length l2
    ∧ ∀ i x y, l1 !! i = Some x → l2 !! i = Some y → eq (k + i) x y = true.
Proof.
  revert k l2. induction l1 as [|x l1 IH]; intros k [|y l2]; simpl.
  - split; [|done]. intros _. split; [done|]. intros i ? ? Hx. done.
  - split; [done|]. intros [? _]. done.
  - split; [done|]. intros [? _]. done.
  - rewrite andb_true_iff, IH. split.
    + intros (Hxy & Hlen & Hall). split; [by f_equal|].
      intros [|i] x' y'; simpl.
      * intros [= <-] [= <-]. by rewrite Nat.add_0_r.
      * replace (k + S i) with (S k + i) by lia. apply Hall.
    + intros (Hlen & Hall). split.
      * rewrite <- (Nat.add_0_r k). by apply (Hall 0).
      * split; [congruence|]. intros i x' y' Hx Hy.
        replace (S k + i) with (k + S i) by lia. by apply (Hall (S i)).
Qed.

Lemma forallb_seq (p : nat → bool) n :
  forallb p (seq 0 n) = true ↔ ∀ i, i < n → p i = true.
Proof.
  rewrite forallb_forall. split.
  - intros Hp i Hi. apply Hp, list_elem_of_In, elem_of_seq. lia.
  - intros Hp i Hi%list_elem_of_In%elem_of_seq. apply Hp. lia.
Qed.

Lemma symmetricb_true n (m : list (list num)) :
  symmetricb n m = true
  ↔ ∀ i j, i < n → j < n → neqb (entry m i j) (entry m j i) = true.
Proof.
  unfold symmetricb. rewrite forallb_seq. split.
  - intros Hm i j Hi Hj. specialize (Hm i Hi). rewrite forallb_seq in Hm. auto.
  - intros Hm i Hi. apply forallb_seq. auto.
Qed.

Lemma mirrorb_true n (m : list (list num)) :
  mirrorb n m = true
  ↔ ∀ i j, i < n → j < n → same_item i j (entry m i j) (entry m j i) = true.
Proof.
  unfold mirrorb. rewrite forallb_seq. split.
  - intros Hm i j Hi Hj. specialize (Hm i Hi). rewrite forallb_seq in Hm. auto.
  - intros Hm i Hi. apply forallb_seq. auto.
Qed.

Lemma symmetricb_mirrorb n (m : list (list num)) :
  symmetricb n m = true → mirrorb n m = true.
Proof.
  rewrite symmetricb_true, mirrorb_true. intros Hm i j Hi Hj.
  unfold same_item. rewrite Hm by done. apply orb_true_r.
Qed.

Lemma matrix_eqb_transpose n (m : list (list num)) :
  square n m → matrix_eqb m (transpose n m) = mirrorb n m.
Proof.
  intros Hsq. pose proof (transpose_square n m Hsq) as Hsq'.
  unfold matrix_eqb.
  apply eq_true_iff_eq. rewrite mirrorb_true, list_eqb_lookup. split.
  - intros [_ Hall] i j Hi Hj.
    destruct (square_entry n m i j Hsq Hi Hj) as (row & Hrow & Hx).
    destruct (square_entry n _ i j Hsq' Hi Hj) as (row' & Hrow' & Hx').
    specialize (Hall i row row' Hrow Hrow').
    apply list_eqb_lookup in Hall as [_ Hall].
    rewrite <- (entry_transpose n m i j) by done.
    apply (Hall j _ _ Hx Hx').
  - intros Hsym. split; [destruct Hsq, Hsq'; congruence|].
    intros i row row' Hrow Hrow'. apply list_eqb_lookup.
    assert (i < n) as Hi.
    { destruct Hsq as [<- _]. by eapply lookup_lt_Some. }
    destruct (square_row n m i Hsq Hi) as (r & Hr & Hlen).
    destruct (square_row n _ i Hsq' Hi) as (r' & Hr' & Hlen').
    assert (r = row) by congruence. assert (r' = row') by congruence.
    subst r r'. split; [congruence|]. intros j x y Hx Hy.
    assert (j < n) as Hj by (rewrite <- Hlen; by eapply lookup_lt_Some).
    rewrite <- (entry_lookup m i j row x), <- (entry_lookup _ i j row' y) by done.
    rewrite entry_transpose by done. cbn [Nat.add]. auto.
Qed.

End Transp.

(** ** The classifier *)

Section Classifier.
Context {num : Type} `{Number num}.
Variable rng : Type.
Variable uniform : num → num → rng → num * rng.

Lemma draw_vector_length n g : length (draw_vector rng uniform n g).1 = n.
Proof.
  revert g. induction n as [|n IH]; intros g; simpl; [done|].
  destruct (uniform _ _ g) as [v g1]. specialize (IH g1).
  destruct (draw_vector rng uniform n g1) as [vs g2]. simpl in *. by f_equal.
Qed.

Lemma quadratic_form_square n (A : list (list num)) (v : list num) :
  square n A → length v = n →
  quadratic_form A v = Ok (quadratic_value n A v).
Proof.
  intros Hsq Hv. pose proof Hsq as [Hlen _].
  unfold quadratic_form, quadratic_value. rewrite Hlen.
  apply py_sum_Ok. intros i Hi%elem_of_seq.
  rewrite (index_nth v) by lia. simpl.
  rewrite (py_sum_Ok _ (λ j, entry A i j ⊗ nth_num v j)); [done|].
  intros j Hj%elem_of_seq. read_entry Hsq i j.
  rewrite (index_nth v) by lia. done.
Qed.

Lemma check_square n (A : list (list num)) g :
  square n A → 0 < n →
  check_symmetric_positive_definite rng uniform A g
  = if mirrorb n A then
      positive ← ngt (quadratic_value n A (draw_vector rng uniform n g).1)
                     (of_int 0);
      Ok (positive, (draw_vector rng uniform n g).2)
    else Ok (false, g).
Proof.
  intros Hsq Hn. pose proof Hsq as [Hlen _].
  unfold check_symmetric_positive_definite.
  rewrite (compute_transpose_square n) by done. bind_step.
  rewrite (matrix_eqb_transpose n) by done.
  destruct (mirrorb n A); simpl; [|done].
  rewrite Hlen. pose proof (draw_vector_length n g) as Hv.
  destruct (draw_vector rng uniform n g) as [v g']. simpl in *.
  rewrite (quadratic_form_square n) by done. done.
Qed.

End Classifier.

(** ** The shape of the factor *)

Section Flatten.
Context {num : Type} `{Number num}.

Lemma concat_singletons (bs : list num) : concat (map (λ b, [b]) bs) = bs.
Proof. induction bs as [|b bs IH]; simpl; [done|]. by f_equal. Qed.

Lemma cholesky_cell_store (A L L' : list (list num)) i j :
  cholesky_cell A i j L = Ok L' → ∃ v, store2 L i j v = Ok L'.
Proof.
  unfold cholesky_cell. destruct (decide (i = j)).
  - destruct (py_sum _ _); simpl; [|done].
    destruct (index A i) as [mrow|]; simpl; [|done].
    destruct (index mrow j); simpl; [|done].
    destruct (pow_half _); simpl; [|done]. eauto.
  - destruct (py_sum _ _); simpl; [|done].
    destruct (index A i) as [mrow|]; simpl; [|done].
    destruct (index mrow j); simpl; [|done].
    destruct (index L j) as [rowj|]; simpl; [|done].
    destruct (index rowj j); simpl; [|done].
    destruct (py_div _ _); simpl; [|done]. eauto.
Qed.

Lemma store_ge {A} (l : list A) i v : length l ≤ i → store l i v = Raise IndexError.
Proof. intros Hi. unfold store. rewrite decide_False by lia. done. Qed.

Lemma store2_Ok_inv n (L L' : list (list num)) i j v :
  square n L → store2 L i j v = Ok L' →
  square n L' ∧ ∀ a b, (a, b) ≠ (i, j) → entry L' a b = entry L a b.
Proof.
  intros Hsq Hst.
  destruct (decide (i < n)) as [Hi|Hi].
  - destruct (decide (j < n)) as [Hj|Hj].
    + destruct (store2_square n L i j v Hsq Hi Hj) as (L2 & HL2 & ? & ? & ?).
      rewrite HL2 in Hst. injection Hst as <-. done.
    + exfalso. unfold store2 in Hst.
      destruct (square_row n L i Hsq Hi) as (row & Hrow & Hlen).
      rewrite (proj2 (index_Ok L i row) Hrow) in Hst.
      cbn [mbind result_bind] in Hst.
      rewrite (store_ge row) in Hst by lia. done.
  - exfalso. unfold store2 in Hst. destruct Hsq as [Hlen _].
    rewrite index_ge in Hst by lia. done.
Qed.

Lemma cholesky_row_triangular n (A L0 : list (list num)) i j :
  lower_triangular n L0 → j ≤ S i →
  ∀ L, for_each (seq 0 j) (cholesky_cell A i) L0 = Ok L →
       lower_triangular n L.
Proof.
  intros Htri. induction j as [|j IH]; intros Hj L.
  - simpl. by intros [= <-].
  - rewrite seq_S, for_each_snoc. simpl.
    destruct (for_each (seq 0 j) _ _) as [L1|e]; simpl; [|done].
    intros Hcell. destruct (IH ltac:(lia) L1 eq_refl) as [Hsq Hzero].
    apply cholesky_cell_store in Hcell as [v Hst].
    destruct (store2_Ok_inv n L1 L i j v Hsq Hst) as [Hsq' Hother].
    split; [done|]. intros a b Hab. rewrite Hother; [by apply Hzero|].
    intros E. inversion E. lia.
Qed.

Lemma cholesky_lower_triangular (A L : list (list num)) :
  cholesky_lower A = Ok L → lower_triangular (length A) L.
Proof.
  unfold cholesky_lower. generalize (length A) at 1 as k. intros k.
  set (n := length A). revert L. induction k as [|k IH]; intros L.
  - simpl. intros [= <-]. destruct (chol_inv_init n A) as (Hsq & _ & Hz).
    split; [done|]. intros i j _. apply Hz. intros [? [?|[? ?]]]; lia.
  - rewrite seq_S, for_each_snoc. simpl.
    destruct (for_each (seq 0 k) _ _) as [L1|e]; simpl; [|done].
    intros Hrow. unfold cholesky_row in Hrow. rewrite Nat.add_1_r in Hrow.
    apply (cholesky_row_triangular n A L1 k (S k)); [by apply IH|lia|done].
Qed.

End Flatten.

(** * The claims *)

(** ** Substitution *)

Section SubstitutionClaims.

Context {num : Type} `{Number num}.

Lemma nth_num_ext (u v : list num) :
  length u = length v → (∀ i, i < length u → nth_num u i = nth_num v i) → u = v.
Proof.
  intros Hlen Hnth. apply list_eq_same_length with (length u); [done..|].
  intros i x y Hi Hx Hy.
  rewrite <- (nth_num_lookup u i x Hx), <- (nth_num_lookup v i y Hy). auto.
Qed.

Lemma forward_rec_unique (T : list (list num)) (b y y' : list num) :
  length y = length y' →
  (∀ i, i < length y → forward_rec T b y i) →
  (∀ i, i < length y → forward_rec T b y' i) → y = y'.
Proof.
  intros Hlen Hy Hy'. apply nth_num_ext; [done|].
  intros i. induction i as [i IH] using lt_wf_ind. intros Hi.
  rewrite (Hy i Hi), (Hy' i Hi). f_equal. f_equal.
  apply sigma_ext. intros j Hj%elem_of_seq. rewrite IH by lia. done.
Qed.

Lemma backward_rec_unique (T : list (list num)) (b x x' : list num) :
  length x = length b → length x' = length b →
  (∀ i, i < length b → backward_rec T b x i) →
  (∀ i, i < length b → backward_rec T b x' i) → x = x'.
Proof.
  intros Hlen Hlen' Hx Hx'. apply nth_num_ext; [congruence|].
  assert (∀ d i, length b - i ≤ d → i < length b → nth_num x i = nth_num x' i)
    as Hall.
  { induction d as [|d IH]; intros i Hd Hi; [lia|].
    rewrite (Hx i Hi), (Hx' i Hi). f_equal. f_equal.
    apply sigma_ext. intros j Hj%elem_of_seq. rewrite (IH j) by lia. done. }
  intros i Hi. apply (Hall (length b)); lia.
Qed.

(** C3. For an n×n matrix [T] and a right-hand side [b] of length n:
    forward substitution raises exactly when some diagonal entry of [T] is
    zero, and then it is a division by zero; otherwise it returns the one
    vector [y] of length n with
    [y[i] = (b[i] − Σ_{j<i} T[i][j]·y[j]) / T[i][i]], each entry depending on
    the earlier ones only; backward substitution does the same with
    [x[i] = (b[i] − Σ_{j>i} T[i][j]·x[j]) / T[i][i]], each entry depending on
    the later ones only. *)
Theorem substitution_recurrences n (T : list (list num)) (b : list num) :
  square n T → length b = n →
  ((∀ e, forward_substitution T b = Raise e
         ↔ e = ZeroDivisionError ∧ ∃ i, i < n ∧ is_zero (entry T i i) = true)
   ∧ ((∀ i, i < n → is_zero (entry T i i) = false) →
      ∃ y, forward_substitution T b = Ok y ∧ length y = n
           ∧ (∀ i, i < n → forward_rec T b y i)
           ∧ ∀ y', length y' = n → (∀ i, i < n → forward_rec T b y' i) →
                   y' = y))
  ∧ ((∀ e, backward_substitution T b = Raise e
         ↔ e = ZeroDivisionError ∧ ∃ i, i < n ∧ is_zero (entry T i i) = true)
   ∧ ((∀ i, i < n → is_zero (entry T i i) = false) →
      ∃ x, backward_substitution T b = Ok x ∧ length x = n
           ∧ (∀ i, i < n → backward_rec T b x i)
           ∧ ∀ x', length x' = n → (∀ i, i < n → backward_rec T b x' i) →
                   x' = x)).
Proof.
  intros HT Hb. split.
  - pose proof (forward_prefix n T b n HT Hb (le_n n)) as Hrun.
    unfold forward_substitution. rewrite Hb.
    destruct (for_each (seq 0 n) _ _) as [y|e0].
    + destruct Hrun as [Hy Hrec]. split.
      * intros e. split; [done|]. intros [_ (i & Hi & Hz)].
        destruct (Hrec i Hi) as [Hnz _]. congruence.
      * intros _. exists y. split; [done|]. split; [done|]. split.
        -- intros i Hi. by apply Hrec.
        -- intros y' Hy' Hrec'. apply (forward_rec_unique T b); [congruence|..].
           ++ intros i Hi. apply Hrec'. lia.
           ++ intros i Hi. apply Hrec. lia.
    + destruct Hrun as [-> (i & Hi & Hz)]. split.
      * intros e. split; [intros [= <-]; eauto|]. by intros [-> _].
      * intros Hnz. rewrite Hnz in Hz by done. done.
  - pose proof (backward_prefix n T b n HT Hb (le_n n)) as Hrun.
    unfold backward_substitution, range_down. rewrite Hb.
    rewrite Nat.sub_diag in Hrun.
    destruct (for_each (rev (seq 0 n)) _ _) as [x|e0].
    + destruct Hrun as [Hx Hrec]. split.
      * intros e. split; [done|]. intros [_ (i & Hi & Hz)].
        destruct (Hrec i ltac:(lia)) as [Hnz _]. congruence.
      * intros _. exists x. split; [done|]. split; [done|]. split.
        -- intros i Hi. apply Hrec. lia.
        -- intros x' Hx' Hrec'.
           apply (backward_rec_unique T b); [congruence..| |].
           ++ intros i Hi. apply Hrec'. lia.
           ++ intros i Hi. apply Hrec. lia.
    + destruct Hrun as [-> (i & Hi & Hz)]. split.
      * intros e. split; [intros [= <-]; split; [done|]; exists i; split; [lia|done]|].
        by intros [-> _].
      * intros Hnz. rewrite Hnz in Hz by lia. done.
Qed.

End SubstitutionClaims.

(** ** Dispatch *)

Section DispatchClaims.

Context {num : Type} `{Number num}.
Variable separateAugmented :
  list (list num) → result (list (list num) * rhs num).
Variable Doolittle : list (list num) → result (list num).
Variable rng : Type.
Variable uniform : num → num → rng → num * rng.

Abbreviation decompose := (decompose_cholesky separateAugmented).
Abbreviation check := (check_symmetric_positive_definite rng uniform).
Abbreviation solve := (solve_one separateAugmented Doolittle rng uniform).
Abbreviation draw := (draw_vector rng uniform).

(** The steps of [decompose_cholesky] behind a successful return. *)
Lemma decompose_cholesky_Ok (aug : list (list num)) x L U :
  decompose aug = Ok (x, L, U)
  ↔ ∃ A b vector y,
      separateAugmented aug = Ok (A, b) ∧ flatten_rhs b = Ok vector
      ∧ cholesky_lower A = Ok L ∧ compute_transpose L = Ok U
      ∧ forward_substitution L vector = Ok y
      ∧ backward_substitution U y = Ok x.
Proof.
  unfold decompose_cholesky. split.
  - destruct (separateAugmented aug) as [[A b]|]; bind_step; [|done].
    destruct (flatten_rhs b) as [vector|] eqn:Hv; bind_step; [|done].
    destruct (cholesky_lower A) as [L0|] eqn:HL; bind_step; [|done].
    destruct (compute_transpose L0) as [U0|] eqn:HU; bind_step; [|done].
    destruct (forward_substitution L0 vector) as [y|] eqn:Hy; bind_step; [|done].
    destruct (backward_substitution U0 y) as [x0|] eqn:Hx; bind_step; [|done].
    intros [= -> -> ->]. by exists A, b, vector, y.
  - intros (A & b & vector & y & -> & Hv & HL & HU & Hy & Hx). bind_step.
    rewrite Hv. bind_step. rewrite HL. bind_step. rewrite HU. bind_step.
    rewrite Hy. bind_step. rewrite Hx. done.
Qed.

(** C1. A line is reported for a matrix exactly in two ways: the
    classifier returned true on the coefficient block, the method is
    Cholesky and the solution comes from factoring the block, transposing
    the factor, and substituting forward then backward; or the classifier
    returned false, the method is Doolittle and the solution is what the
    Doolittle solver returns on the whole augmented matrix.  The loop
    records that method and solution under the running index. *)
Theorem dispatch_routes (matrix : list (list num)) (g : rng)
    (method_name : string) (solution : list num) (g' : rng) :
  (solve matrix g = Ok (method_name, solution, g')
   ↔ ∃ A b vector,
       separateAugmented matrix = Ok (A, b) ∧ flatten_rhs b = Ok vector
       ∧ ((check A g = Ok (true, g') ∧ method_name = "Cholesky"%string
           ∧ ∃ L U y,
               cholesky_lower A = Ok L ∧ compute_transpose L = Ok U
               ∧ forward_substitution L vector = Ok y
               ∧ backward_substitution U y = Ok solution)
          ∨ (check A g = Ok (false, g') ∧ method_name = "Doolittle"%string
             ∧ Doolittle matrix = Ok solution)))
  ∧ ∀ rest index,
      solve matrix g = Ok (method_name, solution, g') →
      execute_loop separateAugmented Doolittle rng uniform
                   (matrix :: rest) index g
      = (Report index method_name solution
           :: (execute_loop separateAugmented Doolittle rng uniform
                            rest (S index) g').1,
         (execute_loop separateAugmented Doolittle rng uniform
                       rest (S index) g').2).
Proof.
  split.
  - unfold solve_one. split.
    + destruct (separateAugmented matrix) as [[A b]|] eqn:Hsplit; bind_step; [|done].
      destruct (flatten_rhs b) as [vector|] eqn:Hflat; bind_step; [|done].
      destruct (check A g) as [[[] g1]|] eqn:Hcheck; bind_step; [| |done].
      * destruct (decompose matrix) as [[[x L] U]|] eqn:Hdec; bind_step; [|done].
        intros [= <- <- <-]. exists A, b, vector. split; [done|]. split; [done|].
        left. split; [done|]. split; [done|].
        apply decompose_cholesky_Ok in Hdec
          as (A' & b' & vector' & y & HA' & Hv' & HL & HU & Hy & Hx).
        rewrite Hsplit in HA'. injection HA' as <- <-.
        rewrite Hflat in Hv'. injection Hv' as <-. by exists L, U, y.
      * destruct (Doolittle matrix) as [x|] eqn:Hd; bind_step; [|done].
        intros [= <- <- <-]. exists A, b, vector. split; [done|]. split; [done|].
        right. done.
    + intros (A & b & vector & Hsplit & Hflat & Hcase). rewrite Hsplit.
      bind_step. rewrite Hflat. bind_step.
      destruct Hcase as [(-> & -> & L & U & y & HL & HU & Hy & Hx)
                        |(-> & -> & ->)]; bind_step; [|done].
      assert (decompose matrix = Ok (solution, L, U)) as ->; [|done].
      apply decompose_cholesky_Ok. by exists A, b, vector, y.
  - intros rest index Hsolve. simpl. rewrite Hsolve.
    by destruct (execute_loop _ _ _ _ rest (S index) g').
Qed.

End DispatchClaims.

(** ** Classifier, factor shape and flattening *)

Section ClassifierClaims.

Context {num : Type} `{Number num}.
Variable separateAugmented :
  list (list num) → result (list (list num) * rhs num).
Variable rng : Type.
Variable uniform : num → num → rng → num * rng.

Abbreviation decompose := (decompose_cholesky separateAugmented).
Abbreviation check := (check_symmetric_positive_definite rng uniform).
Abbreviation draw := (draw_vector rng uniform).

Lemma draw_vector_S n g :
  draw (S n) g
  = ((draw n g).1 ++ [(uniform (of_int (-1)) (of_int 1) (draw n g).2).1],
     (uniform (of_int (-1)) (of_int 1) (draw n g).2).2).
Proof.
  revert g. induction n as [|n IH]; intros g.
  - simpl. by destruct (uniform _ _ g).
  - change (draw (S (S n)) g)
      with (let '(v, g1) := uniform (of_int (-1)) (of_int 1) g in
            let '(vs, g2) := draw (S n) g1 in (v :: vs, g2)).
    change (draw (S n) g)
      with (let '(v, g1) := uniform (of_int (-1)) (of_int 1) g in
            let '(vs, g2) := draw n g1 in (v :: vs, g2)).
    destruct (uniform _ _ g) as [v g1]. rewrite IH.
    destruct (draw n g1) as [vs g2]. done.
Qed.

Lemma draw_vector_nth n g i :
  i < n →
  nth_num (draw n g).1 i = (uniform (of_int (-1)) (of_int 1) (draw i g).2).1.
Proof.
  induction n as [|n IH]; intros Hi; [lia|].
  rewrite draw_vector_S. cbn [fst]. apply nth_num_lookup.
  pose proof (draw_vector_length rng uniform n g) as Hlen.
  destruct (decide (i = n)) as [->|Hne].
  - rewrite lookup_app_r by lia. rewrite Hlen, Nat.sub_diag. done.
  - rewrite lookup_app_l by lia. rewrite <- IH by lia.
    apply nth_num_lt. lia.
Qed.

(** C4. Take a square matrix whose entries are all equal to themselves, as
    every number but a NaN is.  If some entry differs from its mirror entry
    the matrix is rejected at once: the answer is false and the generator
    is handed back in the state it was received in.  An answer of true is
    only ever given for a matrix equal to its transpose entry by entry. *)
Theorem asymmetric_rejected_without_draw n (A : list (list num)) (g : rng) :
  square n A →
  (∀ i j, i < n → j < n → neqb (entry A i j) (entry A i j) = true) →
  ((∃ i j, i < n ∧ j < n ∧ neqb (entry A i j) (entry A j i) = false) →
   check A g = Ok (false, g))
  ∧ (0 < n → ∀ g', check A g = Ok (true, g') →
     ∀ i j, i < n → j < n → neqb (entry A i j) (entry A j i) = true).
Proof.
  intros HA Hself. split.
  - intros (i & j & Hi & Hj & Hij).
    rewrite (check_square rng uniform n) by (done || lia).
    destruct (mirrorb n A) eqn:Hsym; [|done].
    rewrite mirrorb_true in Hsym. specialize (Hsym i j Hi Hj).
    unfold same_item in Hsym. rewrite Hij, orb_false_r in Hsym.
    apply bool_decide_eq_true in Hsym as ->.
    rewrite Hself in Hij by done. done.
  - intros Hn g'. rewrite (check_square rng uniform n) by done.
    destruct (mirrorb n A) eqn:Hsym; [|done].
    intros _ i j Hi Hj. rewrite mirrorb_true in Hsym.
    specialize (Hsym i j Hi Hj). unfold same_item in Hsym.
    apply orb_true_iff in Hsym as [->%bool_decide_eq_true|Hij]; [|done].
    by apply Hself.
Qed.

(** C5. For a square matrix equal to its transpose entry by entry the
    classifier draws one vector, its n components being n successive
    calls of [uniform(-1, 1)], evaluates
    [Σ_i v[i]·(Σ_j A[i][j]·v[j])] on it, and answers true exactly when
    that one value is greater than zero. *)
Theorem single_sample_classification n (A : list (list num)) (g : rng) :
  square n A → 0 < n →
  (∀ i j, i < n → j < n → neqb (entry A i j) (entry A j i) = true) →
  length (draw n g).1 = n
  ∧ (∀ i, i < n →
       nth_num (draw n g).1 i
       = (uniform (of_int (-1)) (of_int 1) (draw i g).2).1)
  ∧ check A g
    = (positive ← ngt (quadratic_value n A (draw n g).1) (of_int 0);
       Ok (positive, (draw n g).2))
  ∧ (check A g = Ok (true, (draw n g).2)
     ↔ ngt (quadratic_value n A (draw n g).1) (of_int 0) = Ok true).
Proof.
  intros HA Hn Hsym%symmetricb_true%symmetricb_mirrorb.
  split; [apply draw_vector_length|]. split; [intros; by apply draw_vector_nth|].
  rewrite (check_square rng uniform n), Hsym by done. split; [done|].
  destruct (ngt _ _) as [[]|]; bind_step; split; congruence.
Qed.

(** C9. Whenever the factorization completes, on any input, the factor is
    square and zero above the diagonal; and whenever [decompose_cholesky]
    returns, the upper matrix it returns, the one backward substitution
    was run on, is the transpose of the factor it returns. *)
Theorem factor_lower_triangular :
  (∀ (A L : list (list num)),
     cholesky_lower A = Ok L →
     square (length A) L ∧ ∀ i j, i < j → entry L i j = float_zero)
  ∧ ∀ (aug : list (list num)) x L U,
      decompose aug = Ok (x, L, U) →
      (∀ i j, i < j → entry L i j = float_zero)
      ∧ compute_transpose L = Ok U
      ∧ (∀ i j, entry U i j = entry L j i)
      ∧ ∃ y, backward_substitution U y = Ok x.
Proof.
  split; [intros A L HL; by apply cholesky_lower_triangular|].
  intros aug x L U.
  intros (A & b & vector & y & _ & _ & HL & HU & _ & Hx)%decompose_cholesky_Ok.
  apply cholesky_lower_triangular in HL as [Hsq Hzero].
  split; [done|]. split; [done|]. split; [|by exists y].
  destruct (decide (0 < length A)) as [Hn|Hn].
  - rewrite (compute_transpose_square (length A)) in HU by done.
    injection HU as <-. intros i j. by apply entry_transpose.
  - unfold compute_transpose in HU. pose proof Hsq as [Hlen _].
    rewrite index_ge in HU by lia. done.
Qed.

(** C10. When the split hands the right-hand side back as a column of
    one-entry lists, [decompose_cholesky] runs the substitutions on the
    flat vector of those entries: it returns what it returns for a split
    that hands back the flat vector itself, a list of numbers. *)
Theorem nested_rhs_flattened (aug : list (list num)) A (bs : list num) :
  separateAugmented aug = Ok (A, Nested (map (λ b, [b]) bs)) →
  (bs ≠ [] →
   decompose aug
   = (lower ← cholesky_lower A;
      upper ← compute_transpose lower;
      y ← forward_substitution lower bs;
      x ← backward_substitution upper y;
      Ok (x, lower, upper)))
  ∧ ∀ separateAugmented',
      separateAugmented' aug = Ok (A, Flat bs) →
      decompose aug = decompose_cholesky separateAugmented' aug.
Proof.
  intros Hsplit. unfold decompose_cholesky. rewrite Hsplit. bind_step.
  destruct bs as [|b0 bs]; (split; [intros Hne|intros split' ->; bind_step]);
    try done; cbn [flatten_rhs map]; bind_step;
    change (concat ([b0] :: map (λ b, [b]) bs))
      with (b0 :: concat (map (λ b, [b]) bs));
    rewrite concat_singletons; done.
Qed.

End ClassifierClaims.

(** ** Failure of the factorization *)

Section FailureClaims.

Context {num : Type} `{Number num}.
Variable separateAugmented :
  list (list num) → result (list (list num) * rhs num).



(** What the factorization of a square matrix can raise. *)
Lemma cholesky_lower_raises n (A : list (list num)) e :
  square n A → cholesky_lower A = Raise e →
  (e = ZeroDivisionError
   ∧ ∃ j L', S j < n ∧ cholesky_rows A (S j) = Ok L'
             ∧ is_zero (entry L' j j) = true)
  ∨ power_error e.
Proof.
  intros HA Hrun. pose proof HA as [Hlen _].
  pose proof (cholesky_rows_prefix n A n HA (le_n n)) as Hpre.
  rewrite cholesky_lower_rows, Hlen in Hrun. rewrite Hrun in Hpre. done.
Qed.



End FailureClaims.

(** ** A zero pivot, a negative radicand *)

Section FailureOnFloats.

Import PyFloat.




End FailureOnFloats.

(** ** The recurrences of the factor *)

Section FactorClaims.

Context {num : Type} `{Number num}.


End FactorClaims.

(** ** 1×1 systems *)

Section ScalarSystem.

Context {num : Type} `{Number num}.
Variable Doolittle : list (list num) → result (list num).
Variable rng : Type.
Variable uniform : num → num → rng → num * rng.

(** The run of [decompose_cholesky] on a 1×1 system [[a, b]]. *)
Lemma scalar_decompose (a b : num) :
  decompose_cholesky splitAugmented [[a; b]]
  = (r ← pow_half (a ⊖ of_int 0);
     if is_zero r then Raise ZeroDivisionError
     else Ok ([ndiv (ndiv (b ⊖ of_int 0) r ⊖ of_int 0) r], [[r]], [[r]])).
Proof.
  unfold decompose_cholesky.
  change (splitAugmented [[a; b]]) with (Ok ([[a]], Flat [b])).
  bind_step. change (flatten_rhs (Flat [b])) with (Ok [b]). bind_step.
  assert (cholesky_lower [[a]] = (r ← pow_half (a ⊖ of_int 0); Ok [[r]]))
    as ->.
  { unfold cholesky_lower, cholesky_row, cholesky_cell.
    cbn -[pow_half nsub of_int]. by destruct (pow_half (a ⊖ of_int 0)). }
  destruct (pow_half (a ⊖ of_int 0)) as [r|e]; bind_step; [|done].
  change (compute_transpose [[r]]) with (Ok [[r]]). bind_step.
  unfold forward_substitution, backward_substitution, range_down.
  cbn -[is_zero ndiv nsub of_int pow_half store]. unfold py_div.
  destruct (is_zero r) eqn:Hz; [done|]. bind_step.
  rewrite store_lt by (cbn; lia).
  cbn -[is_zero ndiv nsub of_int pow_half store]. unfold py_div. rewrite Hz.
  bind_step. rewrite store_lt by (cbn; lia). done.
Qed.

(** The classifier on a 1×1 block [[a]]: the only entry is compared with
    itself, and the sample is drawn. *)
Lemma scalar_check (a : num) (g : rng) :
  check_symmetric_positive_definite rng uniform [[a]] g
  = (let v := (uniform (of_int (-1)) (of_int 1) g).1 in
     positive ← ngt (of_int 0 ⊕ v ⊗ (of_int 0 ⊕ a ⊗ v)) (of_int 0);
     Ok (positive, (uniform (of_int (-1)) (of_int 1) g).2)).
Proof.
  unfold check_symmetric_positive_definite.
  change (compute_transpose [[a]]) with (Ok [[a]]). bind_step.
  change (matrix_eqb [[a]] [[a]]) with true.
  cbn [negb length draw_vector].
  destruct (uniform _ _ g) as [v g1]. done.
Qed.

(** C7 (amended). For a 1×1 system [[a, b]] one sample [v] is drawn, and
    the value [0 + v·(0 + a·v)] computed by the program decides: when it is
    greater than zero the solve goes to Cholesky and returns
    [x = [(b / l) / l]] with [l = a ** 0.5], forward and backward
    substitution dividing once each by [l]; otherwise it goes to
    Doolittle. *)
Theorem scalar_system_solution (a b : num) (g : rng) :
  let v := (uniform (of_int (-1)) (of_int 1) g).1 in
  let g' := (uniform (of_int (-1)) (of_int 1) g).2 in
  let q := of_int 0 ⊕ v ⊗ (of_int 0 ⊕ a ⊗ v) in
  (∀ l, ngt q (of_int 0) = Ok true →
        pow_half (a ⊖ of_int 0) = Ok l → is_zero l = false →
        solve_one splitAugmented Doolittle rng uniform [[a; b]] g
        = Ok ("Cholesky"%string,
              [ndiv (ndiv (b ⊖ of_int 0) l ⊖ of_int 0) l], g'))
  ∧ (ngt q (of_int 0) = Ok false →
     solve_one splitAugmented Doolittle rng uniform [[a; b]] g
     = (solution ← Doolittle [[a; b]];
        Ok ("Doolittle"%string, solution, g'))).
Proof.
  cbv zeta.
  assert (solve_one splitAugmented Doolittle rng uniform [[a; b]] g
          = ('(spd, g') ← check_symmetric_positive_definite rng uniform [[a]] g;
             if (spd : bool) then
               '(solution, _, _) ← decompose_cholesky splitAugmented [[a; b]];
               Ok ("Cholesky"%string, solution, g')
             else
               solution ← Doolittle [[a; b]];
               Ok ("Doolittle"%string, solution, g'))) as -> by done.
  rewrite scalar_check. cbv zeta. split.
  - intros l -> Hl Hz. bind_step. rewrite scalar_decompose, Hl. bind_step.
    rewrite Hz. done.
  - intros ->. done.
Qed.

End ScalarSystem.

(** ** The two example systems *)

Section Examples.

Import PyFloat.

Variable Doolittle : list (list pynum) → result (list pynum).
Variable rng : Type.
Variable uniform : pynum → pynum → rng → pynum * rng.

Abbreviation solve := (solve_one splitAugmented Doolittle rng uniform).
Abbreviation draw := (draw_vector rng uniform).

(** The dispatch of a 4×4 system whose block is symmetric. *)
Lemma symmetric_system_dispatch (aug A : list (list pynum)) b x L U g :
  splitAugmented aug = Ok (A, Flat b) → b ≠ [] →
  square 4 A → symmetricb 4 A = true →
  decompose_cholesky splitAugmented aug = Ok (x, L, U) →
  solve aug g
  = (positive ← ngt (quadratic_value 4 A (draw 4 g).1) (of_int 0);
     if (positive : bool) then Ok ("Cholesky"%string, x, (draw 4 g).2)
     else solution ← Doolittle aug;
          Ok ("Doolittle"%string, solution, (draw 4 g).2)).
Proof.
  intros Hsplit Hb HA Hsym Hdec. unfold solve_one. rewrite Hsplit. bind_step.
  destruct b as [|b0 b]; [done|]. cbn [flatten_rhs]. bind_step.
  rewrite (check_square rng uniform 4), (symmetricb_mirrorb 4 A Hsym)
    by (done || lia).
  destruct (ngt _ _) as [[]|]; bind_step; [|done..].
  rewrite Hdec. done.
Qed.

(** C8 (amended). The coefficient blocks of both example systems are
    symmetric, so neither is rejected on symmetry: each is sent to Cholesky
    when its sampled quadratic form is positive and to Doolittle
    otherwise.  On the Cholesky path the solutions are [2, -3, 4, -1] and
    [6, -2, 0, 14], and they satisfy [A·x = b] exactly. *)
Theorem example_systems_dispatch :
  let A1 := map (map of_int) [[1; -1; 3; 2]; [-1; 5; -5; -2];
                              [3; -5; 19; 3]; [2; -2; 3; 21]]%Z in
  let A2 := map (map of_int) [[4; 2; 4; 0]; [2; 2; 3; 2];
                              [4; 3; 6; 3]; [0; 2; 3; 9]]%Z in
  let x1 := map of_int [2; -3; 4; -1]%Z in
  let x2 := map of_int [6; -2; 0; 14]%Z in
  (∃ aug1 aug2,
     matrices = [aug1; aug2]
     ∧ splitAugmented aug1 = Ok (A1, Flat (map of_int [15; -35; 94; 1]%Z))
     ∧ splitAugmented aug2 = Ok (A2, Flat (map of_int [20; 36; 60; 122]%Z))
     ∧ (∀ g, solve aug1 g
          = (positive ← ngt (quadratic_value 4 A1 (draw 4 g).1) (of_int 0);
             if (positive : bool)
             then Ok ("Cholesky"%string, x1, (draw 4 g).2)
             else solution ← Doolittle aug1;
                  Ok ("Doolittle"%string, solution, (draw 4 g).2)))
     ∧ (∀ g, solve aug2 g
          = (positive ← ngt (quadratic_value 4 A2 (draw 4 g).1) (of_int 0);
             if (positive : bool)
             then Ok ("Cholesky"%string, x2, (draw 4 g).2)
             else solution ← Doolittle aug2;
                  Ok ("Doolittle"%string, solution, (draw 4 g).2))))
  ∧ symmetricb 4 A1 = true ∧ symmetricb 4 A2 = true
  ∧ mat_vec 4 A1 x1 = map of_int [15; -35; 94; 1]%Z
  ∧ mat_vec 4 A2 x2 = map of_int [20; 36; 60; 122]%Z.
Proof.
  intros A1 A2 x1 x2.
  assert (∀ A : list (list pynum),
            length A = 4 → forallb (λ row, length row =? 4) A = true →
            square 4 A) as Hsq.
  { intros A Hlen Hrows. split; [done|]. apply Forall_forall.
    intros row Hrow%list_elem_of_In. rewrite forallb_forall in Hrows.
    by apply Nat.eqb_eq, Hrows. }
  split; [|repeat split; vm_compute; reflexivity].
  eexists _, _. split; [reflexivity|].
  split; [vm_compute; reflexivity|]. split; [vm_compute; reflexivity|].
  split; intros g.
  - eapply symmetric_system_dispatch;
      [vm_compute; reflexivity|done|by apply Hsq|vm_compute; reflexivity|].
    vm_compute. reflexivity.
  - eapply symmetric_system_dispatch;
      [vm_compute; reflexivity|done|by apply Hsq|vm_compute; reflexivity|].
    vm_compute. reflexivity.
Qed.

End Examples.

(** ** Runs on concrete inputs *)

Section FloatRuns.

Import PyFloat.

Abbreviation tape := (list pynum).


(** The other way the factorization fails: on [[1, 1e200], [1e200, 1]] the
    square [lower[1][0] ** 2] is out of range. *)
Example trial_overflow :
  cholesky_lower [[Flt 1; of_int (10 ^ 200)]; [of_int (10 ^ 200); Flt 1]]
  = Raise OverflowError.
Proof. vm_compute. reflexivity. Qed.

(** C7, counterexample.  The system [[4, 8]] with the sample [1.0] goes to
    Cholesky and returns [x = [2.0]], while [b / sqrt(a)] is [4.0]; the
    system [[2, 1]] returns [0.49999999999999994]; and the system
    [[5e-324, 1]] with the sample [0.5], whose form is computed as [0.0],
    goes to Doolittle. *)
Lemma scalar_system_counterexample :
  solve_one splitAugmented no_solver tape scripted_uniform
            [[Flt 4; Flt 8]] [Flt 1]
  = Ok ("Cholesky"%string, [Flt 2], [])
  ∧ (r ← pow_half (Flt 4); Ok (ndiv (Flt 8) r)) = Ok (Flt 4)
  ∧ [Flt 2] ≠ [Flt 4]
  ∧ solve_one splitAugmented no_solver tape scripted_uniform
              [[Flt 2; Flt 1]] [Flt 0.5]
    = Ok ("Cholesky"%string, [Flt 0x1.fffffffffffffp-2], [])
  ∧ ngt (Flt 0x1p-1074) (of_int 0) = Ok true
  ∧ solve_one splitAugmented (λ _, Ok []) tape scripted_uniform
              [[Flt 0x1p-1074; Flt 1]] [Flt 0.5]
    = Ok ("Doolittle"%string, [], []).
Proof.
  split; [vm_compute; reflexivity|]. split; [vm_compute; reflexivity|].
  split; [intros E; vm_compute in E; discriminate E|].
  repeat split; vm_compute; reflexivity.
Qed.

(** C8, counterexample.  The coefficient block of the second example system
    equals its transpose, and with samples for which both quadratic forms
    are positive [execute_main] reports Cholesky for both systems. *)
Lemma example_blocks_both_cholesky :
  let A2 := map (map of_int) [[4; 2; 4; 0]; [2; 2; 3; 2];
                              [4; 3; 6; 3]; [0; 2; 3; 9]]%Z in
  compute_transpose A2 = Ok A2
  ∧ matrix_eqb A2 A2 = true
  ∧ symmetricb 4 A2 = true
  ∧ execute_main splitAugmented no_solver tape scripted_uniform
                 (replicate 8 (Flt 1))
    = ([Report 1 "Cholesky" (map of_int [2; -3; 4; -1]%Z);
        Report 2 "Cholesky" (map of_int [6; -2; 0; 14]%Z)], None).
Proof. repeat split; vm_compute; reflexivity. Qed.

(** A NaN on the diagonal is compared with itself as an object: the
    symmetry test passes and the sample is drawn. *)
Example trial_nan_diagonal :
  neqb (Flt nan) (Flt nan) = false
  ∧ check_symmetric_positive_definite tape scripted_uniform
      [[Flt nan]] [Flt 1]
    = Ok (false, []).
Proof. split; vm_compute; reflexivity. Qed.

Lemma dispatch_routes_witness :
  ∃ A b vector,
    splitAugmented [[Flt 4; Flt 8]] = Ok (A, b) ∧ flatten_rhs b = Ok vector
    ∧ ((check_symmetric_positive_definite tape scripted_uniform A [Flt 1]
        = Ok (true, [])
        ∧ "Cholesky"%string = "Cholesky"%string
        ∧ ∃ L U y,
            cholesky_lower A = Ok L ∧ compute_transpose L = Ok U
            ∧ forward_substitution L vector = Ok y
            ∧ backward_substitution U y = Ok [Flt 2])
       ∨ (check_symmetric_positive_definite tape scripted_uniform A [Flt 1]
          = Ok (false, [])
          ∧ "Cholesky"%string = "Doolittle"%string
          ∧ no_solver [[Flt 4; Flt 8]] = Ok [Flt 2])).
Proof.
  apply (proj1 (proj1 (dispatch_routes splitAugmented no_solver tape
                         scripted_uniform [[Flt 4; Flt 8]] [Flt 1]
                         "Cholesky" [Flt 2] []))).
  vm_compute. reflexivity.
Defined.

Lemma substitution_recurrences_witness :
  let T := [[Flt 2; Flt 0]; [Flt 1; Flt 2]] in
  let b := [Flt 4; Flt 7] in
  square 2 T ∧ length b = 2
  ∧ forward_substitution T b = Ok [Flt 2; Flt 2.5]
  ∧ ∃ x, backward_substitution T b = Ok x ∧ length x = 2.
Proof.
  intros T b.
  assert (square 2 T) as HT by (split; [reflexivity|repeat constructor]).
  assert (length b = 2) as Hb by reflexivity.
  split; [exact HT|]. split; [exact Hb|].
  destruct (substitution_recurrences 2 T b HT Hb) as [[_ Hfwd] [_ Hbwd]].
  assert (∀ i, i < 2 → is_zero (entry T i i) = false) as Hnz.
  { intros [|[|i]] Hi; [reflexivity|reflexivity|lia]. }
  split; [vm_compute; reflexivity|].
  destruct (Hbwd Hnz) as (x & Hx & Hlen & _). exists x. split; [exact Hx|exact Hlen].
Defined.

Lemma asymmetric_rejected_witness :
  let A := [[Flt 1; Flt 2]; [Flt 3; Flt 1]] in
  square 2 A
  ∧ (∀ i j, i < 2 → j < 2 → neqb (entry A i j) (entry A i j) = true)
  ∧ (∃ i j, i < 2 ∧ j < 2 ∧ neqb (entry A i j) (entry A j i) = false)
  ∧ check_symmetric_positive_definite tape scripted_uniform A [Flt 1; Flt 1]
    = Ok (false, [Flt 1; Flt 1]).
Proof.
  intros A.
  assert (square 2 A) as HA by (split; [reflexivity|repeat constructor]).
  assert (∀ i j, i < 2 → j < 2 → neqb (entry A i j) (entry A i j) = true)
    as Hself.
  { intros [|[|i]] [|[|j]] Hi Hj; try reflexivity; lia. }
  assert (∃ i j, i < 2 ∧ j < 2 ∧ neqb (entry A i j) (entry A j i) = false)
    as Hasym.
  { exists 0, 1. split; [lia|]. split; [lia|reflexivity]. }
  split; [exact HA|]. split; [exact Hself|]. split; [exact Hasym|].
  exact (proj1 (asymmetric_rejected_without_draw tape scripted_uniform 2 A
                  [Flt 1; Flt 1] HA Hself) Hasym).
Defined.

Lemma single_sample_witness :
  let A := [[Flt 4; Flt 2]; [Flt 2; Flt 3]] in
  let g := [Flt 0.5; Flt (-1)] in
  square 2 A ∧ 0 < 2
  ∧ (∀ i j, i < 2 → j < 2 → neqb (entry A i j) (entry A j i) = true)
  ∧ check_symmetric_positive_definite tape scripted_uniform A g
    = (positive ← ngt (quadratic_value 2 A [Flt 0.5; Flt (-1)]) (of_int 0);
       Ok (positive, [])).
Proof.
  intros A g.
  assert (square 2 A) as HA by (split; [reflexivity|repeat constructor]).
  assert (∀ i j, i < 2 → j < 2 → neqb (entry A i j) (entry A j i) = true)
    as Hsym.
  { intros [|[|i]] [|[|j]] Hi Hj; try reflexivity; lia. }
  split; [exact HA|]. split; [lia|]. split; [exact Hsym|].
  exact (proj1 (proj2 (proj2
    (single_sample_classification tape scripted_uniform 2 A g HA
       ltac:(lia) Hsym)))).
Defined.


Lemma factor_lower_triangular_witness :
  let aug := [[Flt 4; Flt 2; Flt 4]; [Flt 2; Flt 5; Flt 7]] in
  let L := [[Flt 2; Flt 0]; [Flt 1; Flt 2]] in
  let U := [[Flt 2; Flt 1]; [Flt 0; Flt 2]] in
  decompose_cholesky splitAugmented aug = Ok ([Flt 0.375; Flt 1.25], L, U)
  ∧ (∀ i j, i < j → entry L i j = float_zero)
  ∧ compute_transpose L = Ok U.
Proof.
  intros aug L U.
  assert (decompose_cholesky splitAugmented aug
          = Ok ([Flt 0.375; Flt 1.25], L, U)) as Hdec
    by (vm_compute; reflexivity).
  split; [exact Hdec|].
  destruct (proj2 (factor_lower_triangular splitAugmented) aug _ L U Hdec)
    as (Hzero & HU & _).
  split; [exact Hzero|exact HU].
Defined.

Lemma nested_rhs_witness :
  let aug := [[Flt 4; Flt 2; Flt 4]; [Flt 2; Flt 5; Flt 7]] in
  let A := [[Flt 4; Flt 2]; [Flt 2; Flt 5]] in
  splitAugmented_column aug = Ok (A, Nested [[Flt 4]; [Flt 7]])
  ∧ splitAugmented aug = Ok (A, Flat [Flt 4; Flt 7])
  ∧ decompose_cholesky splitAugmented_column aug
    = decompose_cholesky splitAugmented aug.
Proof.
  intros aug A.
  assert (splitAugmented_column aug
          = Ok (A, Nested (map (λ b, [b]) [Flt 4; Flt 7]))) as Hcol
    by reflexivity.
  split; [exact Hcol|]. split; [reflexivity|].
  exact (proj2 (nested_rhs_flattened splitAugmented_column aug A
                  [Flt 4; Flt 7] Hcol) splitAugmented eq_refl).
Defined.

Lemma example_systems_witness :
  ∃ aug1 aug2,
    matrices = [aug1; aug2]
    ∧ solve_one splitAugmented no_solver tape scripted_uniform aug1
                (replicate 8 (Flt 1))
      = Ok ("Cholesky"%string, map of_int [2; -3; 4; -1]%Z,
            replicate 4 (Flt 1))
    ∧ solve_one splitAugmented no_solver tape scripted_uniform aug2
                (replicate 8 (Flt 0))
      = Raise TypeError.
Proof.
  destruct (example_systems_dispatch no_solver tape scripted_uniform)
    as [(aug1 & aug2 & Hm & _ & _ & H1 & H2) _].
  exists aug1, aug2. split; [exact Hm|]. split.
  - rewrite H1. vm_compute. reflexivity.
  - rewrite H2. vm_compute. reflexivity.
Defined.


Lemma scalar_system_witness :
  let v := (scripted_uniform (of_int (-1)) (of_int 1) [Flt 1]).1 in
  ngt (of_int 0 ⊕ v ⊗ (of_int 0 ⊕ Flt 4 ⊗ v)) (of_int 0) = Ok true
  ∧ pow_half (Flt 4 ⊖ of_int 0) = Ok (Flt 2)
  ∧ is_zero (Flt 2) = false
  ∧ solve_one splitAugmented no_solver tape scripted_uniform
              [[Flt 4; Flt 8]] [Flt 1]
    = Ok ("Cholesky"%string,
          [ndiv (ndiv (Flt 8 ⊖ of_int 0) (Flt 2) ⊖ of_int 0) (Flt 2)], []).
Proof.
  intros v.
  assert (ngt (of_int 0 ⊕ v ⊗ (of_int 0 ⊕ Flt 4 ⊗ v)) (of_int 0) = Ok true)
    as Hq by (vm_compute; reflexivity).
  assert (pow_half (Flt 4 ⊖ of_int 0) = Ok (Flt 2)) as Hl
    by (vm_compute; reflexivity).
  assert (is_zero (Flt 2) = false) as Hz by reflexivity.
  split; [exact Hq|]. split; [exact Hl|]. split; [exact Hz|].
  exact (proj1 (scalar_system_solution no_solver tape scripted_uniform
                  (Flt 4) (Flt 8) [Flt 1]) (Flt 2) Hq Hl Hz).
Defined.

End FloatRuns.

(** ** The mathematics of the example matrices *)

Section RealExamples.

Import PyFloat.
Local Open Scope R_scope.

Lemma sum_of_squares_positive (s0 s1 s2 s3 : R) :
  (s0 ≠ 0 ∨ s1 ≠ 0 ∨ s2 ≠ 0 ∨ s3 ≠ 0) →
  0 < s0 * s0 + s1 * s1 + s2 * s2 + s3 * s3.
Proof.
  intros Hne.
  pose proof (Rle_0_sqr s0) as H0. pose proof (Rle_0_sqr s1) as H1.
  pose proof (Rle_0_sqr s2) as H2. pose proof (Rle_0_sqr s3) as H3.
  unfold Rsqr in *.
  destruct Hne as [Hne|[Hne|[Hne|Hne]]];
    apply Rdichotomy in Hne; destruct Hne; nra.
Qed.

(** Both example blocks are positive definite: over the real numbers
    [vᵗ·A·v > 0] for every [v] that is not zero. *)
Lemma example_blocks_positive_definite :
  positive_definite 4
    [[1; -1; 3; 2]; [-1; 5; -5; -2]; [3; -5; 19; 3]; [2; -2; 3; 21]]%Z
  ∧ positive_definite 4
      [[4; 2; 4; 0]; [2; 2; 3; 2]; [4; 3; 6; 3]; [0; 2; 3; 9]]%Z.
Proof.
  split.
  - intros v Hne. set (a := v 0%nat). set (b := v 1%nat).
    set (c := v 2%nat). set (d := v 3%nat).
    change (0 < 0 + a * (0 + 1 * a + -1 * b + 3 * c + 2 * d)
                + b * (0 + -1 * a + 5 * b + -5 * c + -2 * d)
                + c * (0 + 3 * a + -5 * b + 19 * c + 3 * d)
                + d * (0 + 2 * a + -2 * b + 3 * c + 21 * d)).
    assert (a ≠ 0 ∨ b ≠ 0 ∨ c ≠ 0 ∨ d ≠ 0) as Hv.
    { destruct Hne as ([|[|[|[|i]]]] & Hi & Hnz); [tauto..|lia]. }
    pose proof (sum_of_squares_positive
                  (a - b + 3 * c + 2 * d) (2 * b - c) (3 * c - d) (4 * d)) as Hs.
    assert (a - b + 3 * c + 2 * d ≠ 0 ∨ 2 * b - c ≠ 0
            ∨ 3 * c - d ≠ 0 ∨ 4 * d ≠ 0) as Hs'.
    { destruct (Req_dec d 0); [|right; right; right; lra].
      destruct (Req_dec c 0); [|right; right; left; lra].
      destruct (Req_dec b 0); [|right; left; lra].
      left. destruct Hv as [?|[?|[?|?]]]; lra. }
    specialize (Hs Hs'). lra.
  - intros v Hne. set (a := v 0%nat). set (b := v 1%nat).
    set (c := v 2%nat). set (d := v 3%nat).
    change (0 < 0 + a * (0 + 4 * a + 2 * b + 4 * c + 0 * d)
                + b * (0 + 2 * a + 2 * b + 3 * c + 2 * d)
                + c * (0 + 4 * a + 3 * b + 6 * c + 3 * d)
                + d * (0 + 0 * a + 2 * b + 3 * c + 9 * d)).
    assert (a ≠ 0 ∨ b ≠ 0 ∨ c ≠ 0 ∨ d ≠ 0) as Hv.
    { destruct Hne as ([|[|[|[|i]]]] & Hi & Hnz); [tauto..|lia]. }
    pose proof (sum_of_squares_positive
                  (2 * a + b + 2 * c) (b + c + 2 * d) (c + d) (2 * d)) as Hs.
    assert (2 * a + b + 2 * c ≠ 0 ∨ b + c + 2 * d ≠ 0
            ∨ c + d ≠ 0 ∨ 2 * d ≠ 0) as Hs'.
    { destruct (Req_dec d 0); [|right; right; right; lra].
      destruct (Req_dec c 0); [|right; right; left; lra].
      destruct (Req_dec b 0); [|right; left; lra].
      left. destruct Hv as [?|[?|[?|?]]]; lra. }
    specialize (Hs Hs'). lra.
Qed.


End RealExamples.

(** * Further properties of hw3c.py *)

(** ** The transpose *)

Section Rect.
Context {num : Type} `{Number num}.

Lemma entry_rect_lookup r c (m : list (list num)) i j :
  rectangular r c m → i < r → j < c →
  ∃ row, m !! i = Some row ∧ row !! j = Some (entry m i j).
Proof.
  intros [Hlen Hrows] Hi Hj.
  destruct (lookup_lt_is_Some_2 m i) as [row Hrow]; [lia|].
  rewrite Forall_lookup in Hrows. pose proof (Hrows i row Hrow) as Hc.
  exists row. split; [done|].
  destruct (lookup_lt_is_Some_2 row j) as [x Hx]; [lia|].
  by rewrite (entry_lookup m i j row x).
Qed.

Lemma entry_outside r c (m : list (list num)) i j :
  rectangular r c m → r ≤ i ∨ c ≤ j → entry m i j = float_zero.
Proof.
  intros [Hlen Hrows] Hij. unfold entry, nth_num.
  destruct (m !! i) as [row|] eqn:Hrow; simpl; [|done].
  rewrite Forall_lookup in Hrows. specialize (Hrows i row Hrow).
  apply lookup_lt_Some in Hrow.
  rewrite lookup_ge_None_2 by lia. done.
Qed.

Lemma transpose_rectangular r c (m : list (list num)) :
  rectangular r c m → rectangular c r (transpose c m).
Proof.
  intros [Hlen _]. unfold transpose. split.
  - by rewrite length_map, length_seq.
  - apply Forall_forall. intros row Hrow.
    apply list_elem_of_fmap in Hrow as (i & -> & _).
    by rewrite length_map, length_seq.
Qed.

Lemma entry_transpose_rect r c (m : list (list num)) i j :
  rectangular r c m → entry (transpose c m) i j = entry m j i.
Proof.
  intros Hm. pose proof Hm as [Hlen _].
  destruct (decide (i < c)) as [Hi|Hi]; [destruct (decide (j < r)) as [Hj|Hj]|].
  - unfold transpose.
    apply (entry_lookup _ i j (map (λ j, entry m j i) (seq 0 (length m)))).
    + rewrite list_lookup_fmap, lookup_seq_lt by done. done.
    + rewrite list_lookup_fmap, lookup_seq_lt by lia. done.
  - rewrite (entry_outside r c m j i) by (done || lia).
    apply (entry_outside c r); [by apply transpose_rectangular|lia].
  - rewrite (entry_outside r c m j i) by (done || lia).
    apply (entry_outside c r); [by apply transpose_rectangular|lia].
Qed.

Lemma rectangular_ext r c (m m' : list (list num)) :
  rectangular r c m → rectangular r c m' →
  (∀ i j, i < r → j < c → entry m i j = entry m' i j) → m = m'.
Proof.
  intros Hm Hm' Hent. pose proof Hm as [Hlen Hrows]. pose proof Hm' as [Hlen' Hrows'].
  apply list_eq_same_length with r; [done..|].
  intros i row row' Hi Hrow Hrow'.
  rewrite Forall_lookup in Hrows, Hrows'.
  pose proof (Hrows i row Hrow). pose proof (Hrows' i row' Hrow').
  apply list_eq_same_length with c; [done..|].
  intros j x y Hj Hx Hy.
  rewrite <- (entry_lookup m i j row x), <- (entry_lookup m' i j row' y) by done.
  auto.
Qed.

Lemma compute_transpose_rect r c (m : list (list num)) :
  rectangular r c m → 0 < r → compute_transpose m = Ok (transpose c m).
Proof.
  intros Hm Hr. pose proof Hm as [Hlen Hrows]. unfold compute_transpose, transpose.
  destruct (lookup_lt_is_Some_2 m 0) as [row0 Hrow0]; [lia|].
  rewrite Forall_lookup in Hrows. pose proof (Hrows 0 row0 Hrow0) as Hc.
  rewrite (proj2 (index_Ok m 0 row0) Hrow0). bind_step. rewrite Hc.
  apply list_comp_map. intros i Hi%elem_of_seq.
  apply list_comp_map. intros j Hj%elem_of_seq.
  destruct (entry_rect_lookup r c m j i Hm) as (row & Hrow & Hx); [lia..|].
  apply index_Ok in Hrow, Hx. rewrite Hrow. bind_step. done.
Qed.

(** X1. On a matrix of r rows of c entries each, with r and c positive,
    [compute_transpose] returns the matrix of c rows of r entries with
    [t[i][j] = m[j][i]], and transposing that result gives the matrix
    back. *)
Theorem transpose_round_trip r c (m : list (list num)) :
  rectangular r c m → 0 < r → 0 < c →
  ∃ t, compute_transpose m = Ok t ∧ rectangular c r t
       ∧ (∀ i j, entry t i j = entry m j i)
       ∧ compute_transpose t = Ok m.
Proof.
  intros Hm Hr Hc. exists (transpose c m).
  pose proof (transpose_rectangular r c m Hm) as Ht.
  split; [by apply (compute_transpose_rect r)|]. split; [done|].
  split; [intros; by apply (entry_transpose_rect r)|].
  rewrite (compute_transpose_rect c r) by done. f_equal.
  apply (rectangular_ext r c); [by apply transpose_rectangular|done|].
  intros i j Hi Hj. rewrite (entry_transpose_rect c r) by done.
  by apply (entry_transpose_rect r).
Qed.

End Rect.

Section TransposeEdges.
Context {num : Type} `{Number num}.

Lemma list_comp_raises {A B} (f : A → result B) (xs : list A) (e : exn) :
  (∀ x, x ∈ xs → (∃ y, f x = Ok y) ∨ f x = Raise e) →
  (∃ ys, list_comp f xs = Ok ys ∧ ∀ x, x ∈ xs → ∃ y, f x = Ok y)
  ∨ (list_comp f xs = Raise e ∧ ∃ x, x ∈ xs ∧ f x = Raise e).
Proof.
  induction xs as [|x xs IH]; intros Hf.
  - left. exists []. split; [done|]. intros x Hx. by apply elem_of_nil in Hx.
  - simpl. destruct (Hf x) as [[y Hy]|Hx]; [apply elem_of_cons; by left| |].
    + rewrite Hy. bind_step.
      destruct IH as [(ys & -> & Hall)|(-> & x' & Hx' & Hraise)].
      * intros x' Hx'. apply Hf, elem_of_cons. by right.
      * left. exists (y :: ys). split; [done|].
        intros x' [->|Hx']%elem_of_cons; eauto.
      * right. split; [done|]. exists x'. split; [|done].
        apply elem_of_cons. by right.
    + rewrite Hx. right. split; [done|]. exists x. split; [|done].
      apply elem_of_cons. by left.
Qed.

Lemma compute_transpose_ragged (m : list (list num)) row0 :
  m !! 0 = Some row0 → Forall (λ row, length row0 ≤ length row) m →
  compute_transpose m = Ok (transpose (length row0) m).
Proof.
  intros Hrow0 Hrows. unfold compute_transpose, transpose.
  rewrite (proj2 (index_Ok m 0 row0) Hrow0). bind_step.
  apply list_comp_map. intros i Hi%elem_of_seq.
  apply list_comp_map. intros j Hj%elem_of_seq.
  destruct (lookup_lt_is_Some_2 m j) as [row Hrow]; [lia|].
  rewrite Forall_lookup in Hrows. pose proof (Hrows j row Hrow) as Hlen.
  destruct (lookup_lt_is_Some_2 row i) as [x Hx]; [lia|].
  rewrite (entry_lookup m j i row x) by done.
  apply index_Ok in Hrow, Hx. rewrite Hrow. bind_step. done.
Qed.

Lemma compute_transpose_short (m : list (list num)) row0 row :
  m !! 0 = Some row0 → row ∈ m → length row < length row0 →
  compute_transpose m = Raise IndexError.
Proof.
  intros Hrow0 Hin Hshort. unfold compute_transpose.
  rewrite (proj2 (index_Ok m 0 row0) Hrow0). bind_step.
  apply list_elem_of_lookup in Hin as [j0 Hj0].
  set (inner := λ i, list_comp (λ j, r ← index m j; index r i)
                               (seq 0 (length m))).
  assert (∀ i, (∃ y, inner i = Ok y) ∨ inner i = Raise IndexError) as Hinner.
  { intros i. unfold inner.
    destruct (list_comp_raises (λ j, r ← index m j; index r i)
                (seq 0 (length m)) IndexError) as [(ys & -> & _)|[-> _]]; eauto.
    intros j Hj%elem_of_seq.
    destruct (lookup_lt_is_Some_2 m j) as [r Hr]; [lia|].
    rewrite (proj2 (index_Ok m j r) Hr). bind_step. unfold index.
    destruct (r !! i); eauto. }
  destruct (list_comp_raises inner (seq 0 (length row0)) IndexError)
    as [(ys & _ & Hall)|[Hraise _]]; [by intros i _| |done].
  exfalso. destruct (Hall (length row)) as [y Hy]; [apply elem_of_seq; lia|].
  unfold inner in Hy.
  destruct (list_comp_raises (λ j, r ← index m j; index r (length row))
              (seq 0 (length m)) IndexError) as [(ys' & _ & Hall')|[Hr _]].
  - intros j Hj%elem_of_seq.
    destruct (lookup_lt_is_Some_2 m j) as [r Hr]; [lia|].
    rewrite (proj2 (index_Ok m j r) Hr). bind_step. unfold index.
    destruct (r !! length row); eauto.
  - destruct (Hall' j0) as [x Hx].
    { apply elem_of_seq. apply lookup_lt_Some in Hj0. lia. }
    rewrite (proj2 (index_Ok m j0 row) Hj0) in Hx. cbn [mbind result_bind] in Hx.
    rewrite index_ge in Hx by lia. done.
  - rewrite Hr in Hy. done.
Qed.

(** X2. [compute_transpose] raises nothing but [IndexError], and it does so
    exactly on the empty list and on a matrix with a row shorter than
    row 0.  When no row is shorter than row 0 it returns [len(m[0])] rows of
    [len(m)] entries with [t[i][j] = m[j][i]]: what longer rows hold beyond
    the width of row 0 is dropped. *)
Theorem transpose_fails_on_short_row (m : list (list num)) :
  (∀ e, compute_transpose m = Raise e
        ↔ e = IndexError
          ∧ (m = [] ∨ ∃ row0 row, m !! 0 = Some row0 ∧ row ∈ m
                                  ∧ length row < length row0))
  ∧ ∀ row0, m !! 0 = Some row0 →
            Forall (λ row, length row0 ≤ length row) m →
            ∃ t, compute_transpose m = Ok t
                 ∧ rectangular (length row0) (length m) t
                 ∧ ∀ i j, i < length row0 → j < length m →
                          entry t i j = entry m j i.
Proof.
  split.
  - intros e. split.
    + intros Hfail. destruct (m !! 0) as [row0|] eqn:Hrow0.
      2:{ destruct m; [|done]. unfold compute_transpose in Hfail.
          cbn in Hfail. injection Hfail as <-. split; [done|]. by left. }
      destruct (decide (Forall (λ row, length row0 ≤ length row) m))
        as [Hall|Hnot].
      { rewrite (compute_transpose_ragged m row0) in Hfail by done. done. }
      apply not_Forall_Exists in Hnot; [|apply _].
      apply Exists_exists in Hnot as (row & Hin & Hshort).
      assert (length row < length row0) as Hlt by (simpl in Hshort; lia).
      rewrite (compute_transpose_short m row0 row Hrow0 Hin Hlt) in Hfail.
      injection Hfail as <-. split; [done|]. right.
      exists row0, row. done.
    + intros [-> [->|(row0 & row & Hrow0 & Hin & Hshort)]]; [done|].
      by apply (compute_transpose_short m row0 row).
  - intros row0 Hrow0 Hall. exists (transpose (length row0) m).
    split; [by apply compute_transpose_ragged|]. split.
    + unfold transpose. split; [by rewrite length_map, length_seq|].
      apply Forall_forall. intros row Hrow.
      apply list_elem_of_fmap in Hrow as (i & -> & _).
      by rewrite length_map, length_seq.
    + intros i j Hi Hj. unfold transpose.
      apply (entry_lookup _ i j (map (λ j, entry m j i) (seq 0 (length m)))).
      * rewrite list_lookup_fmap, lookup_seq_lt by done. done.
      * rewrite list_lookup_fmap, lookup_seq_lt by lia. done.
Qed.

End TransposeEdges.

Section ClassifierEdges.
Context {num : Type} `{Number num}.
Variable rng : Type.
Variable uniform : num → num → rng → num * rng.

(** X3. A matrix of r rows of c entries each with c different from r is
    never classified as symmetric positive definite: the answer is false
    and no sample is drawn.  On the empty list the classifier raises
    [IndexError]. *)
Theorem classifier_rejects_non_square r c (m : list (list num)) (g : rng) :
  rectangular r c m → 0 < r → c ≠ r →
  check_symmetric_positive_definite rng uniform m g = Ok (false, g)
  ∧ check_symmetric_positive_definite rng uniform [] g = Raise IndexError.
Proof.
  intros Hm Hr Hcr. split; [|done].
  unfold check_symmetric_positive_definite.
  rewrite (compute_transpose_rect r c) by done. bind_step.
  destruct (matrix_eqb m _) eqn:Heq; [|done].
  apply list_eqb_lookup in Heq as [Hlen _].
  destruct Hm as [Hlen' _]. unfold transpose in Hlen.
  rewrite length_map, length_seq in Hlen. lia.
Qed.

End ClassifierEdges.

(** ** What the loops read *)

Section Triangles.
Context {num : Type} `{Number num}.

(** Reading [m[i][j]] of a square matrix and going on with it. *)
Lemma read_square {B} n (m : list (list num)) i j (k : num → result B) :
  square n m → i < n → j < n →
  (row ← index m i; x ← index row j; k x) = k (entry m i j).
Proof.
  intros Hm Hi Hj. destruct (square_entry n m i j Hm Hi Hj) as (row & Hrow & Hx).
  apply index_Ok in Hrow, Hx. rewrite Hrow. bind_step. rewrite Hx. done.
Qed.

Lemma cholesky_cell_lower n (A A' L : list (list num)) i j :
  square n A → square n A' → j ≤ i → i < n →
  entry A i j = entry A' i j →
  cholesky_cell A i j L = cholesky_cell A' i j L.
Proof.
  intros HA HA' Hji Hi Hent. unfold cholesky_cell.
  destruct (decide (i = j)); destruct (py_sum _ _) as [s|]; bind_step;
    try done;
    rewrite (read_square n A), (read_square n A'), Hent by (done || lia);
    done.
Qed.

(** X4. The factorization loop reads the entries on and below the diagonal
    only: two n×n matrices that agree there give the same outcome, the same
    factor or the same exception. *)
Theorem cholesky_reads_lower_triangle n (A A' : list (list num)) :
  square n A → square n A' →
  (∀ i j, j ≤ i → i < n → entry A i j = entry A' i j) →
  cholesky_lower A = cholesky_lower A'.
Proof.
  intros HA HA' Hlow. unfold cholesky_lower.
  destruct HA as [Hlen Hrows]. destruct HA' as [Hlen' Hrows'].
  rewrite Hlen, Hlen'. apply for_each_ext. intros i L Hi%elem_of_seq.
  unfold cholesky_row. apply for_each_ext. intros j L' Hj%elem_of_seq.
  apply (cholesky_cell_lower n); try done; try lia. apply Hlow; lia.
Qed.

(** X5. Forward substitution reads the matrix on and below the diagonal
    only, and backward substitution on and above the diagonal only: two n×n
    matrices that agree on that triangle give the same outcome. *)
Theorem substitution_reads_one_triangle n (T T' : list (list num))
    (b : list num) :
  square n T → square n T' → length b = n →
  ((∀ i j, j ≤ i → i < n → entry T i j = entry T' i j) →
   forward_substitution T b = forward_substitution T' b)
  ∧ ((∀ i j, i ≤ j → j < n → entry T i j = entry T' i j) →
     backward_substitution T b = backward_substitution T' b).
Proof.
  intros HT HT' Hb. split; intros Hsame.
  - unfold forward_substitution. rewrite Hb. apply for_each_ext.
    intros i y Hi%elem_of_seq.
    destruct (index b i) as [vi|]; bind_step; [|done].
    rewrite (py_sum_ext _ (λ j, row ← index T' i; lij ← index row j;
                                yj ← index y j; Ok (lij ⊗ yj))).
    2:{ intros j Hj%elem_of_seq.
        rewrite (read_square n T), (read_square n T') by (done || lia).
        rewrite Hsame by lia. done. }
    destruct (py_sum _ _) as [s|]; bind_step; [|done].
    rewrite (read_square n T), (read_square n T') by (done || lia).
    rewrite Hsame by lia. done.
  - unfold backward_substitution, range_down. rewrite Hb. apply for_each_ext.
    intros i x Hi. apply list_elem_of_In, in_rev, list_elem_of_In in Hi.
    apply elem_of_seq in Hi.
    destruct (index b i) as [vi|]; bind_step; [|done].
    rewrite (py_sum_ext _ (λ j, row ← index T' i; uij ← index row j;
                                xj ← index x j; Ok (uij ⊗ xj))).
    2:{ intros j Hj%elem_of_seq.
        rewrite (read_square n T), (read_square n T') by (done || lia).
        rewrite Hsame by lia. done. }
    destruct (py_sum _ _) as [s|]; bind_step; [|done].
    rewrite (read_square n T), (read_square n T') by (done || lia).
    rewrite Hsame by lia. done.
Qed.

End Triangles.

(** ** The report loop *)

Section LoopReports.
Context {num : Type} `{Number num}.
Variable separateAugmented :
  list (list num) → result (list (list num) * rhs num).
Variable Doolittle : list (list num) → result (list num).
Variable rng : Type.
Variable uniform : num → num → rng → num * rng.

Abbreviation solve := (solve_one separateAugmented Doolittle rng uniform).
Abbreviation run := (execute_loop separateAugmented Doolittle rng uniform).

Lemma solve_one_method (matrix : list (list num)) g method_name x g' :
  solve matrix g = Ok (method_name, x, g') →
  method_name = "Cholesky"%string ∨ method_name = "Doolittle"%string.
Proof.
  unfold solve_one.
  destruct (separateAugmented matrix) as [[A b]|]; bind_step; [|done].
  destruct (flatten_rhs b); bind_step; [|done].
  destruct (check_symmetric_positive_definite _ _ A g) as [[[] g1]|];
    bind_step; [| |done].
  - destruct (decompose_cholesky _ matrix) as [[[? ?] ?]|]; bind_step; [|done].
    intros [= <- _ _]. by left.
  - destruct (Doolittle matrix); bind_step; [|done].
    intros [= <- _ _]. by right.
Qed.

(** X10. The lines reported by the loop of [execute_main] carry consecutive
    indices from the starting index on, each with the method Cholesky or
    Doolittle; when no exception is raised there is one line per matrix;
    an exception is the one raised while solving the first matrix left
    without a line, and no later matrix is solved. *)
Theorem execute_loop_reports (ms : list (list (list num))) (index : nat)
    (g : rng) :
  map rep_index (run ms index g).1 = seq index (length (run ms index g).1)
  ∧ Forall (λ rep, rep_method rep = "Cholesky"%string
                   ∨ rep_method rep = "Doolittle"%string) (run ms index g).1
  ∧ ((run ms index g).2 = None → length (run ms index g).1 = length ms)
  ∧ ∀ e, (run ms index g).2 = Some e →
         ∃ matrix g', ms !! length (run ms index g).1 = Some matrix
                      ∧ solve matrix g' = Raise e.
Proof.
  revert index g. induction ms as [|matrix rest IH]; intros index g.
  - cbn. split; [done|]. split; [by constructor|]. split; [done|]. by intros e.
  - cbn [execute_loop].
    destruct (solve matrix g) as [[[method_name x] g1]|e0] eqn:Hsolve.
    + specialize (IH (S index) g1).
      destruct (run rest (S index) g1) as [out r]. cbn [fst snd] in *.
      destruct IH as (Hidx & Hmeth & Hnone & Hsome).
      split; [cbn; by rewrite Hidx|]. split.
      * constructor; [|done]. cbn. by apply (solve_one_method matrix g _ x g1).
      * split; [intros Hr; cbn; by rewrite Hnone|].
        intros e He. destruct (Hsome e He) as (m' & g' & Hm' & Hfail).
        exists m', g'. done.
    + cbn. split; [done|]. split; [by constructor|]. split; [done|].
      intros e [= <-]. by exists matrix, g.
Qed.

End LoopReports.

(** ** What the factorization can raise *)

Section FailureKinds.

Import PyFloat.

Lemma complex_result_raises (r : float * float) e :
  complex_result r = Raise e → e = OverflowError.
Proof. unfold complex_result. destruct (_ || _); [by intros [= <-]|done]. Qed.

Lemma float_power_error (e : exn) : power_error e → e = OverflowError.
Proof.
  intros [[x Hx]|[x Hx]]; cbn [pow_two pow_half number] in Hx.
  - destruct x as [f|re im]; cbn [square_power] in Hx.
    + destruct (is_nan f); [done|]. destruct (is_inf f); [done|].
      destruct (f =? 0)%float; [done|]. destruct (abs f =? 1)%float; [done|].
      cbv zeta in Hx. destruct (is_inf _); [by injection Hx as <-|done].
    + by apply complex_result_raises in Hx.
  - destruct x as [f|re im]; cbn [half_power] in Hx.
    + destruct (is_nan f); [done|]. destruct (is_inf f); [done|].
      destruct (f =? 0)%float; [done|]. destruct (f <? 0)%float; [done|].
      by destruct (f =? 1)%float.
    + destruct (_ && _); [done|]. cbv zeta in Hx.
      destruct (0 <=? re)%float; by apply complex_result_raises in Hx.
Qed.

(** X6. The factorization of a square matrix raises nothing but
    [ZeroDivisionError], and then a zero pivot has a row below it, or what
    [** 2] and [** 0.5] raise; on floats and complex numbers that is
    [OverflowError]. *)
Theorem cholesky_failure_kinds :
  (∀ (num : Type) (N : Number num) n (A : list (list num)) e,
     square n A → @cholesky_lower num N A = Raise e →
     (e = ZeroDivisionError
      ∧ ∃ j L', S j < n ∧ cholesky_rows A (S j) = Ok L'
                ∧ is_zero (entry L' j j) = true)
     ∨ power_error e)
  ∧ ∀ n (A : list (list pynum)) e,
      square n A → cholesky_lower A = Raise e →
      e = ZeroDivisionError ∨ e = OverflowError.
Proof.
  split.
  - intros num N n A e. apply cholesky_lower_raises.
  - intros n A e HA Hrun.
    destruct (cholesky_lower_raises n A e HA Hrun) as [[-> _]|Hpow];
      [by left|right]. by apply float_power_error.
Qed.

End FailureKinds.

(** * Properties of hw3b.py and hw3a.py *)

(** ** The bisection *)

Section Bisection.

Context {num : Type} `{Number num} `{Decimal num}.
Variable f : num → result num.



End Bisection.

(** ** Simpson's rule *)

Lemma range_from_S (lo hi : Z) :
  (lo ≤ hi)%Z → range_from lo (hi + 1) = range_from lo hi ++ [hi].
Proof.
  intros Hle. unfold range_from.
  replace (Z.to_nat (hi + 1 - lo)) with (S (Z.to_nat (hi - lo))) by lia.
  rewrite seq_S, map_app. simpl. do 2 f_equal. lia.
Qed.

Lemma range_from_empty (lo hi : Z) : (hi ≤ lo)%Z → range_from lo hi = [].
Proof.
  intros Hle. unfold range_from.
  by replace (Z.to_nat (hi - lo)) with 0%nat by lia.
Qed.

Section QuadratureEdges.

Context {num : Type} `{Number num} `{Decimal num}.

(** X11. [simpson_integration] called with N = 0 or N = -1 raises
    [ZeroDivisionError], whatever the integrand; and an odd N gives what
    N + 1 gives. *)
Theorem simpson_interval_count (f : num → result num) (a b : num) :
  simpson_integration f a b 0 = Raise ZeroDivisionError
  ∧ simpson_integration f a b (-1) = Raise ZeroDivisionError
  ∧ ∀ N, Z.odd N = true →
         simpson_integration f a b N = simpson_integration f a b (N + 1).
Proof.
  split; [done|]. split; [done|]. intros N Hodd.
  unfold simpson_integration. rewrite Hodd.
  replace (Z.odd (N + 1)) with false; [done|].
  rewrite Z.add_1_r, Z.odd_succ, <- Z.negb_odd, Hodd. done.
Qed.

End QuadratureEdges.

Section NegativeCount.

Context {num : Type} `{Number num} `{Decimal num}.

(** X12. With an int N below -1 (and above -2^53) the loop of
    [simpson_integration] is empty: the integrand is called at [a] and at
    [b] only, nothing is raised by the division, and the value returned is
    [(h / 3.0) * (f(a) + f(b) + (4.0 * 0.0 + 2.0 * 0.0))] with
    [h = (b - a) / N], N made even. *)
Theorem simpson_negative_count (f : num → result num) (a b : num) (N : Z) :
  (- 2 ^ 53 < N)%Z → (N < -1)%Z →
  simpson_integration f a b N
  = (fa ← f a;
     fb ← f b;
     Ok (ndiv (ndiv (b ⊖ a) (of_int (if Z.odd N then N + 1 else N)))
              (float_lit 3 0)
         ⊗ (fa ⊕ fb
            ⊕ (float_lit 4 0 ⊗ float_zero ⊕ float_lit 2 0 ⊗ float_zero)))).
Proof.
  intros _ Hneg. unfold simpson_integration.
  set (N' := (if Z.odd N then N + 1 else N)%Z).
  assert (N' < 0)%Z as HN' by (unfold N'; destruct (Z.odd N); lia).
  unfold py_div_int. rewrite (proj2 (Z.eqb_neq _ _)) by lia. bind_step.
  destruct (f a) as [fa|]; bind_step; [|done].
  destruct (f b) as [fb|]; bind_step; [|done].
  rewrite range_from_empty by lia. done.
Qed.

End NegativeCount.

(** ** Instances on concrete inputs *)

Section FloatInstances.

Import PyFloat PyFloatDecimal.

Lemma transpose_round_trip_witness :
  let m := [[Flt 1; Flt 2; Flt 3]; [Flt 4; Flt 5; Flt 6]] in
  rectangular 2 3 m
  ∧ ∃ t, compute_transpose m = Ok t ∧ rectangular 3 2 t
         ∧ (∀ i j, entry t i j = entry m j i)
         ∧ compute_transpose t = Ok m.
Proof.
  intros m.
  assert (rectangular 2 3 m) as Hm by (split; [reflexivity|repeat constructor]).
  split; [exact Hm|].
  apply (transpose_round_trip 2 3 m Hm); lia.
Defined.

Lemma transpose_fails_on_short_row_witness :
  let m := [[Flt 1; Flt 2]; [Flt 3]] in
  (∃ row0 row, m !! 0 = Some row0 ∧ row ∈ m ∧ length row < length row0)
  ∧ compute_transpose m = Raise IndexError.
Proof.
  intros m.
  assert (∃ row0 row, m !! 0 = Some row0 ∧ row ∈ m
                      ∧ length row < length row0) as Hshort.
  { exists [Flt 1; Flt 2], [Flt 3]. split; [reflexivity|]. split; [|simpl; lia].
    apply elem_of_cons. right. apply elem_of_cons. by left. }
  split; [exact Hshort|].
  apply (proj1 (transpose_fails_on_short_row m)).
  split; [reflexivity|]. right. exact Hshort.
Defined.

Lemma classifier_rejects_non_square_witness :
  let m := [[Flt 1; Flt 2; Flt 3]; [Flt 4; Flt 5; Flt 6]] in
  rectangular 2 3 m
  ∧ check_symmetric_positive_definite (list pynum) scripted_uniform m
      [Flt 1; Flt 1]
    = Ok (false, [Flt 1; Flt 1])
  ∧ check_symmetric_positive_definite (list pynum) scripted_uniform []
      [Flt 1; Flt 1]
    = Raise IndexError.
Proof.
  intros m.
  assert (rectangular 2 3 m) as Hm by (split; [reflexivity|repeat constructor]).
  split; [exact Hm|].
  apply (classifier_rejects_non_square (list pynum) scripted_uniform 2 3 m
           [Flt 1; Flt 1] Hm); lia.
Defined.

Lemma cholesky_reads_lower_triangle_witness :
  let A := [[Flt 4; Flt 9]; [Flt 2; Flt 3]] in
  let A' := [[Flt 4; Flt 2]; [Flt 2; Flt 3]] in
  square 2 A ∧ square 2 A'
  ∧ (∀ i j, j ≤ i → i < 2 → entry A i j = entry A' i j)
  ∧ cholesky_lower A = cholesky_lower A'.
Proof.
  intros A A'.
  assert (square 2 A) as HA by (split; [reflexivity|repeat constructor]).
  assert (square 2 A') as HA' by (split; [reflexivity|repeat constructor]).
  assert (∀ i j, j ≤ i → i < 2 → entry A i j = entry A' i j) as Hlow.
  { intros [|[|i]] [|[|j]] Hji Hi; try reflexivity; lia. }
  split; [exact HA|]. split; [exact HA'|]. split; [exact Hlow|].
  exact (cholesky_reads_lower_triangle 2 A A' HA HA' Hlow).
Defined.

Lemma substitution_reads_one_triangle_witness :
  let T := [[Flt 2; Flt 7]; [Flt 1; Flt 3]] in
  let T' := [[Flt 2; Flt 0]; [Flt 1; Flt 3]] in
  let b := [Flt 4; Flt 5] in
  square 2 T ∧ square 2 T' ∧ length b = 2
  ∧ (∀ i j, j ≤ i → i < 2 → entry T i j = entry T' i j)
  ∧ forward_substitution T b = forward_substitution T' b.
Proof.
  intros T T' b.
  assert (square 2 T) as HT by (split; [reflexivity|repeat constructor]).
  assert (square 2 T') as HT' by (split; [reflexivity|repeat constructor]).
  assert (length b = 2) as Hb by reflexivity.
  assert (∀ i j, j ≤ i → i < 2 → entry T i j = entry T' i j) as Hlow.
  { intros [|[|i]] [|[|j]] Hji Hi; try reflexivity; lia. }
  split; [exact HT|]. split; [exact HT'|]. split; [exact Hb|].
  split; [exact Hlow|].
  exact (proj1 (substitution_reads_one_triangle 2 T T' b HT HT' Hb) Hlow).
Defined.

Lemma cholesky_failure_kinds_witness :
  let A := [[Flt 1; of_int (10 ^ 200)]; [of_int (10 ^ 200); Flt 1]] in
  square 2 A ∧ cholesky_lower A = Raise OverflowError
  ∧ (OverflowError = ZeroDivisionError ∨ OverflowError = OverflowError).
Proof.
  intros A.
  assert (square 2 A) as HA by (split; [reflexivity|repeat constructor]).
  assert (cholesky_lower A = Raise OverflowError) as Hrun
    by (vm_compute; reflexivity).
  split; [exact HA|]. split; [exact Hrun|].
  exact (proj2 cholesky_failure_kinds 2 A OverflowError HA Hrun).
Defined.

Lemma execute_loop_reports_witness :
  let run := execute_loop splitAugmented no_solver (list pynum)
               scripted_uniform
               [[[Flt 4; Flt 8]]; [[Flt 0; Flt 1]]] 1 [Flt 1; Flt 1] in
  map rep_index run.1 = seq 1 (length run.1)
  ∧ ∀ e, run.2 = Some e →
         ∃ matrix g',
           [[[Flt 4; Flt 8]]; [[Flt 0; Flt 1]]] !! length run.1 = Some matrix
           ∧ solve_one splitAugmented no_solver (list pynum)
               scripted_uniform matrix g' = Raise e.
Proof.
  intros run.
  destruct (execute_loop_reports splitAugmented no_solver (list pynum)
              scripted_uniform [[[Flt 4; Flt 8]]; [[Flt 0; Flt 1]]] 1
              [Flt 1; Flt 1])
    as (Hindex & _ & _ & Hstop).
  split; [exact Hindex|exact Hstop].
Defined.

Lemma simpson_interval_count_witness :
  Z.odd 3 = true
  ∧ simpson_integration (λ x : pynum, Ok (x ⊗ x)) (Flt 0) (Flt 1) 3
    = simpson_integration (λ x : pynum, Ok (x ⊗ x)) (Flt 0) (Flt 1) (3 + 1).
Proof.
  split; [reflexivity|].
  apply (proj2 (proj2 (simpson_interval_count (λ x : pynum, Ok (x ⊗ x))
                         (Flt 0) (Flt 1)))).
  reflexivity.
Defined.

Lemma simpson_negative_count_witness :
  (- 2 ^ 53 < -2)%Z ∧ (-2 < -1)%Z
  ∧ simpson_integration (λ x : pynum, Ok (x ⊗ x)) (Flt 0) (Flt 1) (-2)
    = Ok (ndiv (ndiv (Flt 1 ⊖ Flt 0) (of_int (-2))) (float_lit 3 0)
          ⊗ (Flt 0 ⊗ Flt 0 ⊕ Flt 1 ⊗ Flt 1
             ⊕ (float_lit 4 0 ⊗ float_zero ⊕ float_lit 2 0 ⊗ float_zero))).
Proof.
  split; [lia|]. split; [lia|].
  apply (simpson_negative_count (λ x : pynum, Ok (x ⊗ x)) (Flt 0) (Flt 1) (-2));
    lia.
Defined.


End FloatInstances.

(** ** Runs of the quadrature and the bisection on binary64 *)

Section QuadratureRuns.

Import PyFloat PyFloatDecimal.

(** [simpson_integration(lambda x: x*x, 0.0, 1.0, N)] is
    [0.3333333333333333] for N = 4 and for N = 3, raises for N = -1 and is
    [-0.16666666666666666] for N = -2. *)
Example trial_simpson_square :
  simpson_integration (λ x, Ok (x ⊗ x)) (Flt 0) (Flt 1) 4
  = Ok (Flt 0x1.5555555555555p-2)
  ∧ simpson_integration (λ x, Ok (x ⊗ x)) (Flt 0) (Flt 1) 3
    = Ok (Flt 0x1.5555555555555p-2)
  ∧ simpson_integration (λ x, Ok (x ⊗ x)) (Flt 0) (Flt 1) (-1)
    = Raise ZeroDivisionError
  ∧ simpson_integration (λ x, Ok (x ⊗ x)) (Flt 0) (Flt 1) (-2)
    = Ok (Flt (-0x1.5555555555555p-3)).
Proof. repeat split; vm_compute; reflexivity. Qed.

(** The bisection of [f(x) = x] on [-1, 1] meets the root at its first
    midpoint, keeps the right half and ends at [0.9999999701976776]. *)
Example trial_bisection_walks_away :
  bisection (λ x, Ok x) (Flt (-1)) (Flt 1) = Ok (Flt 0x1.ffffffp-1).
Proof. vm_compute. reflexivity. Qed.

(** [t_cdf] at [z = -10.0] integrates over an empty interval. *)
Example trial_t_cdf_at_bound :
  t_cdf (λ x m, Ok (x ⊗ x)) (Flt (-10)) (Flt 3) = Ok (Flt 0).
Proof. vm_compute. reflexivity. Qed.

End QuadratureRuns.

